(** * A Rocq model of the Biot-Savart field solver

    The development embeds [biot_savart.py] (class [BiotSolver]) and the
    inductance routine of [geom.py] (method [Coil.calc_inductance]).

    Conventions of the embedding.
    - Floating-point numbers are read as exact real numbers ([R]).  In a
      field array a value that NumPy would store as NaN or as an infinity
      is the absent value [None] of an option type; division is the only
      operation of the solver that creates such a value.  The inductance
      routine compares its floats, and there NaN and the two infinities are
      values of their own ([Coil.float]).
    - A Python call either returns or raises: the type [Outcome] keeps the
      name of the exception class that was raised.
    - An array with one axis of length three is a list of triples: a
      [(3, n)] coordinate array is the list of its [n] columns, a [(P, 3)]
      field array is the list of its [P] rows.
    - The objects a solver call receives by reference (the wire and the
      observation points) form the [World] that every call threads
      through.
    - Array operations follow NumPy 1.x, where [np.complex_] names the
      type [complex128]: shapes are stretched by the broadcasting rules,
      and an operation on shapes that do not fit raises ValueError. *)

From Stdlib Require Import String.
From Stdlib Require Import Reals Lra Lia ZArith Bool List.
Import ListNotations.
Open Scope R_scope.

(** ** Python outcomes *)

Module Py.

(** The name of a Python exception class. *)
Definition exn := string.

Inductive Outcome (A : Type) : Type :=
| Return (a : A)
| Raise (e : exn).

Arguments Return {A} a.
Arguments Raise {A} e.

Definition obind {A B : Type} (o : Outcome A) (f : A -> Outcome B) : Outcome B :=
  match o with
  | Return a => f a
  | Raise e => Raise e
  end.

Definition omap {A B : Type} (f : A -> B) (o : Outcome A) : Outcome B :=
  match o with
  | Return a => Return (f a)
  | Raise e => Raise e
  end.

(** Left fold in the error monad: a [for] loop whose body may raise. *)
Fixpoint ofold {A B : Type} (body : A -> B -> Outcome A) (xs : list B) (a : A)
  : Outcome A :=
  match xs with
  | [] => Return a
  | x :: xs' => obind (body a x) (ofold body xs')
  end.

(** [range(n)] for a machine integer [n]: empty when [n <= 0]. *)
Definition range (n : Z) : list nat := seq 0 (Z.to_nat n).

(** [xs[i]] on a sequence: IndexError outside the bounds. *)
Definition getitem {A : Type} (xs : list A) (i : nat) : Outcome A :=
  match nth_error xs i with
  | Some x => Return x
  | None => Raise "IndexError"%string
  end.

End Py.

Export Py.

Notation "x <-- m ;; k" := (obind m (fun x => k))
  (at level 61, m at next level, right associativity).

(** ** The NumPy operations the solver uses *)

Module Np.

Record triple (A : Type) : Type := T3 { c0 : A; c1 : A; c2 : A }.

Arguments T3 {A} c0 c1 c2.
Arguments c0 {A} t.
Arguments c1 {A} t.
Arguments c2 {A} t.

Definition tmap {A B : Type} (f : A -> B) (t : triple A) : triple B :=
  T3 (f (c0 t)) (f (c1 t)) (f (c2 t)).

Definition tmap2 {A B D : Type} (f : A -> B -> D) (s : triple A) (t : triple B)
  : triple D :=
  T3 (f (c0 s) (c0 t)) (f (c1 s) (c1 t)) (f (c2 s) (c2 t)).

(** A shape-(3,) array of floats. *)
Definition vec3 := triple R.

Definition vadd (a b : vec3) : vec3 := tmap2 Rplus a b.
Definition vsub (a b : vec3) : vec3 := tmap2 Rminus a b.
(** [s * v] for a scalar [s]. *)
Definition vscale (s : R) (v : vec3) : vec3 := tmap (Rmult s) v.
(** [v / s] for a scalar [s]. *)
Definition vdivs (v : vec3) (s : R) : vec3 := tmap (fun x => x / s) v.

(** [np.linalg.norm] of a shape-(3,) array. *)
Definition norm (v : vec3) : R :=
  sqrt (c0 v * c0 v + c1 v * c1 v + c2 v * c2 v).

(** [np.cross] of two shape-(3,) arrays. *)
Definition cross (a b : vec3) : vec3 :=
  T3 (c1 a * c2 b - c2 a * c1 b)
     (c2 a * c0 b - c0 a * c2 b)
     (c0 a * c1 b - c1 a * c0 b).

(** Complex numbers, real part first. *)
Definition C := (R * R)%type.

Definition RtoC (x : R) : C := (x, 0).
Definition Cadd (a b : C) : C := (fst a + fst b, snd a + snd b).
Definition Cmul (a b : C) : C :=
  (fst a * fst b - snd a * snd b, fst a * snd b + snd a * fst b).
(** [abs] of a complex number. *)
Definition Cabs (a : C) : R := sqrt (fst a * fst a + snd a * snd a).

(** A cell of a field array: a complex number, or [None] for a cell that
    NumPy holds as NaN or as an infinity. *)
Definition cval := option C.

Definition cadd (a b : cval) : cval :=
  match a, b with
  | Some x, Some y => Some (Cadd x y)
  | _, _ => None
  end.

(** Float division as NumPy performs it on arrays: a zero divisor raises
    nothing (a warning only) and leaves a value that is not a number. *)
Definition fdiv (x y : R) : option R :=
  if Req_dec_T y 0 then None else Some (x / y).

(** A complex scalar times a float cell. *)
Definition cmul_cell (z : C) (x : option R) : cval :=
  match x with
  | Some x' => Some (Cmul z (RtoC x'))
  | None => None
  end.

(** A real scalar times a field cell. *)
Definition cscale (c : R) (z : cval) : cval :=
  match z with
  | Some z' => Some (Cmul (RtoC c) z')
  | None => None
  end.

Inductive dtype : Type := float64 | complex128.

(** The casting rule ['same_kind'] that guards the output of an in-place
    operation: a complex result does not fit a float array. *)
Definition can_cast_same_kind (src dst : dtype) : bool :=
  match src, dst with
  | complex128, float64 => false
  | _, _ => true
  end.

(** An array: its element type and its cells. *)
Record ndarray (A : Type) : Type := Arr { dtype_of : dtype; data : A }.

Arguments Arr {A} dtype_of data.
Arguments dtype_of {A} n.
Arguments data {A} n.

(** [np.floor] of a float. *)
Definition floor (x : R) : Z := Zfloor x.

(** [int(np.floor(a / b))]: the quotient by zero is an infinity, or NaN
    when [a] is zero too, and [int] refuses both. *)
Definition int_floor_div (a b : R) : Outcome Z :=
  if Req_dec_T b 0 then
    if Req_dec_T a 0 then Raise "ValueError"%string
    else Raise "OverflowError"%string
  else Return (floor (a / b)).

(** [np.arange(a, b)] for integers. *)
Definition arange (a b : Z) : list Z :=
  map (fun i => (a + Z.of_nat i)%Z) (seq 0 (Z.to_nat (b - a))).

(** [v * ks] for a shape-(3,) array [v] and a shape-(k,) array [ks]:
    element by element when [k = 3], [ks] stretched when [k = 1], and a
    ValueError for every other [k]. *)
Definition mul_broadcast (v : vec3) (ks : list Z) : Outcome vec3 :=
  match ks with
  | [k] => Return (tmap (fun x => x * IZR k) v)
  | [k0; k1; k2] => Return (T3 (c0 v * IZR k0) (c1 v * IZR k1) (c2 v * IZR k2))
  | _ => Raise "ValueError"%string
  end.

(** [col[:, None] + w] for shape-(3,) arrays [col] and [w]: the (3, 3)
    array whose cell [a, b] is [col[a] + w[b]], here as its three
    columns. *)
Definition add_column_row (col w : vec3) : list vec3 :=
  [ tmap (fun x => x + c0 w) col;
    tmap (fun x => x + c1 w) col;
    tmap (fun x => x + c2 w) col ].

(** [np.zeros(shape)] refuses a negative dimension. *)
Definition zeros_dims (dims : list Z) : Outcome unit :=
  if forallb (fun d => (0 <=? d)%Z) dims then Return tt
  else Raise "ValueError"%string.

(** Storing a (3, m) array in a slot of shape (P, 3).  The value is
    stretched to the slot: this needs [P = 3] and [m] one of 1 and 3.  The
    slot is then a (3, 3) array, read back as its three columns. *)
Definition setitem_slot (P : nat) (value : list vec3) : Outcome (list vec3) :=
  if (P =? 3)%nat then
    match value with
    | [c] => Return [c; c; c]
    | [_; _; _] => Return value
    | _ => Raise "ValueError"%string
    end
  else Raise "ValueError"%string.

(** [out += x] on one row: the result type is checked against the type of
    [out] before anything is stored. *)
Definition iadd_row (out x : ndarray (triple cval))
  : Outcome (ndarray (triple cval)) :=
  if can_cast_same_kind (dtype_of x) (dtype_of out) then
    Return (Arr (dtype_of out) (tmap2 cadd (data out) (data x)))
  else Raise "TypeError"%string.

(** [out += x] for [out] of shape (P, 3) and [x] of shape (1, 3): the one
    row of [x] is added to every row of [out]. *)
Definition iadd_rows (out : ndarray (list (triple cval))) (x : ndarray (triple cval))
  : Outcome (ndarray (list (triple cval))) :=
  if can_cast_same_kind (dtype_of x) (dtype_of out) then
    Return (Arr (dtype_of out) (map (fun row => tmap2 cadd row (data x)) (data out)))
  else Raise "TypeError"%string.

Definition czero : cval := Some (RtoC 0).

(** [np.zeros((1, 3))] and [np.zeros((P, 3), dtype=np.complex_)]. *)
Definition zeros_row : ndarray (triple cval) :=
  Arr float64 (T3 czero czero czero).

Definition zeros_rows (P : nat) : ndarray (list (triple cval)) :=
  Arr complex128 (repeat (T3 czero czero czero) P).

End Np.

Export Np.

(** ** The objects of a solver call *)

(** A [Coil] instance ([geom.py]).  [oid] is the identity of the Python
    object: the class defines no [__eq__], so [==] on coils compares
    identities.  [coordz] is the (3, N) array of the wire vertices, as the
    list of its columns. *)
Record Coil : Type := mkCoil {
  oid : nat;
  coil_I : C;
  center : vec3;
  radius : R;
  num_points : Z;
  orientation : string;
  coordz : list vec3
}.

(** What a call of [solve] is handed by reference: the wire and the (3, P)
    array of observation points. *)
Record World : Type := mkWorld {
  wire : Coil;
  points : list vec3
}.

(** A computation that may read and write the world and may raise.  A
    raised exception keeps the world it was raised in. *)
Definition M (A : Type) : Type := World -> Outcome A * World.

Definition ret {A : Type} (a : A) : M A := fun w => (Return a, w).

Definition bind {A B : Type} (m : M A) (f : A -> M B) : M B :=
  fun w =>
    match m w with
    | (Return a, w') => f a w'
    | (Raise e, w') => (Raise e, w')
    end.

(** Read a part of the world. *)
Definition gets {A : Type} (f : World -> A) : M A := fun w => (Return (f w), w).

(** A call that touches no object of the world. *)
Definition lift {A : Type} (o : Outcome A) : M A := fun w => (o, w).

Notation "x <- m ;; k" := (bind m (fun x => k))
  (at level 61, m at next level, right associativity).

(** A [for] loop over [xs] with the loop state [a]. *)
Fixpoint mfold {A B : Type} (body : A -> B -> M A) (xs : list B) (a : A) : M A :=
  match xs with
  | [] => ret a
  | x :: xs' => a' <- body a x ;; mfold body xs' a'
  end.

(** The outcome of a computation started in world [w]. *)
Definition result {A : Type} (m : M A) (w : World) : Outcome A := fst (m w).

(** The world a computation leaves behind. *)
Definition world_after {A : Type} (m : M A) (w : World) : World := snd (m w).

(** ** [biot_savart.py]: class [BiotSolver] *)

Module BiotSolver.

(** [__db_scale]: the field of one sub-segment [dL] at [point]. *)
Definition db_scale (dL : vec3 * vec3) (point : vec3) (complex_current : C)
  : Outcome (ndarray (triple cval)) :=
  let mu := 4 * PI * 1e-7 in
  let vdL := vsub (snd dL) (fst dL) in
  let rp := vdivs (vadd (snd dL) (fst dL)) 2 in
  let r := vsub point rp in
  let r3 := norm r ^ 3 in
  let integrand := tmap (fun x => fdiv x r3) (cross vdL r) in
  let dB :=
    tmap (cmul_cell (Cmul (RtoC (mu / (4 * PI))) complex_current)) integrand in
  Return (Arr complex128 dB).

(** [__solve_segment]: the field at [point] of the sub-segments between
    the consecutive columns of [d_segment]. *)
Definition solve_segment (d_segment : list vec3) (point : vec3) (complex_current : C)
  : Outcome (ndarray (triple cval)) :=
  ofold
    (fun B i =>
       seg_start <-- getitem d_segment i ;;
       seg_end <-- getitem d_segment (i + 1) ;;
       dB <-- db_scale (seg_start, seg_end) point complex_current ;;
       iadd_row B dB)
    (range (Z.of_nat (length d_segment) - 1))
    zeros_row.

(** [__discretize]: the points that cut edge [n] of the wire in steps of
    length [dL]. *)
Definition discretize (dL : R) (n : nat) : M (list vec3) :=
  cz <- gets (fun w => coordz (wire w)) ;;
  if (length cz <? n + 1)%nat then ret []
  else
    p1 <- lift (getitem cz n) ;;
    p2 <- lift (getitem cz (n + 1)) ;;
    let segment := [p1; p2] in
    let u := vsub p2 p1 in
    let segment_length := norm u in
    if Rlt_dec segment_length dL then ret segment
    else
      n_segments <- lift (int_floor_div segment_length dL) ;;
      let v := vdivs (vscale dL u) segment_length in
      w <- lift (mul_broadcast v (arange 1 (n_segments + 1))) ;;
      let d_segment := add_column_row p1 w in
      if Req_dec_T (IZR n_segments) (segment_length / dL) then ret d_segment
      else ret (d_segment ++ [p2]).

(** [solve]: the field of the wire at every observation point.  The slot
    [segments[i]] is written once and read in the same pass of the loop: it
    is the local value [segment_i].  The allocation of [segments] can fail
    and is kept as a check of its dimensions. *)
Definition solve (dL : R) : M (ndarray (list (triple cval))) :=
  pts <- gets points ;;
  let B := zeros_rows (length pts) in
  cz <- gets (fun w => coordz (wire w)) ;;
  let num_segments := (Z.of_nat (length cz) - 1)%Z in
  pts <- gets points ;;
  _ <- lift (zeros_dims [num_segments; Z.of_nat (length pts); 3%Z]) ;;
  mfold
    (fun B i =>
       d <- discretize dL i ;;
       pts <- gets points ;;
       segment_i <- lift (setitem_slot (length pts) d) ;;
       pts <- gets points ;;
       mfold
         (fun B p =>
            pts <- gets points ;;
            point <- lift (getitem pts p) ;;
            I <- gets (fun w => coil_I (wire w)) ;;
            contribution <- lift (solve_segment segment_i point I) ;;
            lift (iadd_rows B contribution))
         (range (Z.of_nat (length pts)))
         B)
    (range num_segments)
    B.

(** [solve] finds [__solve_segment] on the solver object at every call.
    [solve_with seg] is [solve] on an object that holds the method [seg]
    under that name: the same two loops, which do with the array that [seg]
    returns what [solve] does with the one of its own method. *)
Definition solve_with
    (seg : list vec3 -> vec3 -> C -> Outcome (ndarray (triple cval)))
    (dL : R) : M (ndarray (list (triple cval))) :=
  pts <- gets points ;;
  let B := zeros_rows (length pts) in
  cz <- gets (fun w => coordz (wire w)) ;;
  let num_segments := (Z.of_nat (length cz) - 1)%Z in
  pts <- gets points ;;
  _ <- lift (zeros_dims [num_segments; Z.of_nat (length pts); 3%Z]) ;;
  mfold
    (fun B i =>
       d <- discretize dL i ;;
       pts <- gets points ;;
       segment_i <- lift (setitem_slot (length pts) d) ;;
       pts <- gets points ;;
       mfold
         (fun B p =>
            pts <- gets points ;;
            point <- lift (getitem pts p) ;;
            I <- gets (fun w => coil_I (wire w)) ;;
            contribution <- lift (seg segment_i point I) ;;
            lift (iadd_rows B contribution))
         (range (Z.of_nat (length pts)))
         B)
    (range num_segments)
    B.

(** The public names of the class: [solve] is its one public method (the
    other three are private and reachable from inside the class only).
    Names are compared character by character. *)
Definition getattr (name : string)
  : Outcome (R -> M (ndarray (list (triple cval)))) :=
  if String.eqb name "solve" then Return solve
  else Raise "AttributeError"%string.

End BiotSolver.

(** ** [geom.py]: method [Coil.calc_inductance] *)

Module Coil.

(** [np.linspace(start, stop, num)]: [num] evenly spaced samples, both
    ends included; a negative [num] is refused. *)
Definition linspace (start stop : R) (num : Z) : Outcome (list R) :=
  if (num <? 0)%Z then Raise "ValueError"%string
  else
    Return (map (fun i => start + INR i * ((stop - start) / (IZR num - 1)))
                (seq 0 (Z.to_nat num))).

(** [np.array([x, y, z])] for three rows of one length, as columns. *)
Fixpoint columns (x y z : list R) : list vec3 :=
  match x, y, z with
  | a :: x', b :: y', c :: z' => T3 a b c :: columns x' y' z'
  | _, _, _ => []
  end.

Definition Cabs2 (a : C) : R := fst a * fst a + snd a * snd a.

(** A float of the inductance routine.  The routine compares its floats,
    and a comparison tells NaN from an infinity: the two kinds of value
    that are no real number are kept apart here.  A zero has no sign. *)
Inductive float : Type :=
| Fin (x : R)
| PInf
| NInf
| NaN.

(** [np.linalg.norm(b, axis=1)] on one row of a complex array.  A row with
    a cell that is no number has the norm NaN or the norm infinity, by what
    the cell holds.  The field cells keep one value for both, so the model
    takes from [inf_norm] which of these rows have the norm infinity. *)
Definition row_norm (inf_norm : triple cval -> bool) (row : triple cval) : float :=
  match c0 row, c1 row, c2 row with
  | Some x, Some y, Some z => Fin (sqrt (Cabs2 x + Cabs2 y + Cabs2 z))
  | _, _, _ => if inf_norm row then PInf else NaN
  end.

(** [a > b] on floats: false when one side is NaN; the positive infinity
    exceeds every other number and every other number exceeds the negative
    infinity. *)
Definition float_gt (a b : float) : bool :=
  match a, b with
  | Fin x, Fin y => if Rlt_dec y x then true else false
  | PInf, Fin _ => true
  | PInf, NInf => true
  | Fin _, NInf => true
  | _, _ => false
  end.

(** [a == b] on floats: NaN equals nothing, an infinity equals itself. *)
Definition float_eq (a b : float) : bool :=
  match a, b with
  | Fin x, Fin y => if Req_dec_T x y then true else false
  | PInf, PInf => true
  | NInf, NInf => true
  | _, _ => false
  end.

(** The builtin [max] of a sequence: the first item that no later item
    exceeds; an empty sequence is refused. *)
Definition py_max (xs : list float) : Outcome float :=
  match xs with
  | [] => Raise "ValueError"%string
  | x :: rest =>
      Return (fold_left (fun m item => if float_gt item m then item else m) rest x)
  end.

(** [np.where(cond)[0][0]]: the first index at which [cond] holds. *)
Fixpoint where_first (cond : list bool) : Outcome nat :=
  match cond with
  | [] => Raise "IndexError"%string
  | true :: _ => Return 0%nat
  | false :: rest => i <-- where_first rest ;; Return (S i)
  end.

(** Lines 96 to 99: cut the profile after the first sample of greatest
    magnitude, and the sample points with it. *)
Definition truncate_at_peak (b_norm : list float) (points : list R)
  : Outcome (list float * list R) :=
  peak <-- py_max b_norm ;;
  max_index <-- where_first (map (fun b => float_eq b peak) b_norm) ;;
  let b_norm' := firstn (max_index + 1) b_norm in
  let points' := firstn (length b_norm') points in
  Return (b_norm', points').

(** [x * y] for a real number [x] and a float [y]: zero times an infinity
    is NaN. *)
Definition float_mul (x : R) (y : float) : float :=
  match y with
  | Fin y' => Fin (x * y')
  | PInf => if Rlt_dec 0 x then PInf else if Rlt_dec x 0 then NInf else NaN
  | NInf => if Rlt_dec 0 x then NInf else if Rlt_dec x 0 then PInf else NaN
  | NaN => NaN
  end.

(** [xs * ys] for one-dimensional arrays. *)
Definition mul_arrays (xs : list R) (ys : list float) : Outcome (list float) :=
  if (length xs =? length ys)%nat then
    Return (map (fun xy => float_mul (fst xy) (snd xy)) (combine xs ys))
  else
    match xs, ys with
    | [x], _ => Return (map (float_mul x) ys)
    | _, [y] => Return (map (fun x => float_mul x y) xs)
    | _, _ => Raise "ValueError"%string
    end.

(** [flux / current] on NumPy floats, for a [current] that is a norm (its
    zero is the positive zero): a zero divisor raises nothing and leaves
    an infinity, or NaN when the dividend is zero too. *)
Definition float_div (x : float) (y : R) : float :=
  match x with
  | Fin x' =>
      if Req_dec_T y 0 then
        if Rlt_dec 0 x' then PInf else if Rlt_dec x' 0 then NInf else NaN
      else Fin (x' / y)
  | PInf => if Rlt_dec y 0 then NInf else PInf
  | NInf => if Rlt_dec y 0 then PInf else NInf
  | NaN => NaN
  end.

Section Inductance.

(** SciPy's quadrature [simps(y, x)] is no code of the repository: it is a
    parameter of the model. *)
Variable simps : list float -> list R -> Outcome float.

(** The rows of a field array whose norm is an infinity (see [row_norm]). *)
Variable inf_norm : triple cval -> bool.

(** Lines 95 to 106: from the magnitude profile to the inductance. *)
Definition integrate_profile (is_self : bool) (I : C) (points : list R)
    (b_norm : list float) : Outcome float :=
  domain <-- (if is_self then truncate_at_peak b_norm points
              else Return (b_norm, points)) ;;
  let b_norm := fst domain in
  let points := snd domain in
  let current := Cabs I in
  let area_circle := map (fun t => 2 * PI * t) points in
  integrand <-- mul_arrays area_circle b_norm ;;
  flux <-- simps integrand points ;;
  let inductance := float_div flux current in
  Return inductance.

(** [calc_inductance(self, mutual_coil)] with [disp] left at [False]. *)
Definition calc_inductance (self mutual_coil : Coil) : Outcome float :=
  points <-- linspace 0 (radius mutual_coil) (num_points mutual_coil) ;;
  let ones := repeat 1 (length points) in
  let x := map (fun one => one * c0 (center mutual_coil)) ones in
  let y := map (fun one => one * c1 (center mutual_coil)) ones in
  let z := map (fun ot => fst ot * c2 (center mutual_coil) + snd ot)
               (combine ones points) in
  let integral_points := columns x y z in
  Solve <-- BiotSolver.getattr "Solve" ;;
  let call := Solve 0.1 (mkWorld self integral_points) in
  b <-- fst call ;;
  let self := wire (snd call) in
  let b_norm := map (row_norm inf_norm) (data b) in
  integrate_profile (oid self =? oid mutual_coil)%nat (coil_I self) points b_norm.

End Inductance.

End Coil.

(** ** The statements of the specification *)

Module Spec.

Import BiotSolver.

(** The midpoint of a sub-segment. *)
Definition midpoint (seg_start seg_end : vec3) : vec3 :=
  vdivs (vadd seg_end seg_start) 2.

(** The discretized Biot-Savart law of the specification,
    [dB = (mu0 / 4 pi) * I * (vdL x r) / |r|^3] with [mu0 = 4 pi 1e-7]:
    every component of [vdL x r] is divided by [|r|^3] and scales the
    current by [1e-7]. *)
Definition biot_savart_law (seg_start seg_end point : vec3) (I : C) : triple C :=
  let vdL := vsub seg_end seg_start in
  let r := vsub point (midpoint seg_start seg_end) in
  tmap (fun x => (1e-7 * x / norm r ^ 3 * fst I, 1e-7 * x / norm r ^ 3 * snd I))
       (cross vdL r).

(** The wire with its current scaled by the real factor [c]. *)
Definition scale_current (c : R) (w : World) : World :=
  mkWorld
    (mkCoil (oid (wire w)) (Cmul (RtoC c) (coil_I (wire w))) (center (wire w))
            (radius (wire w)) (num_points (wire w)) (orientation (wire w))
            (coordz (wire w)))
    (points w).

(** A field array with every cell scaled by the real factor [c]. *)
Definition scale_row (c : R) (row : ndarray (triple cval)) : ndarray (triple cval) :=
  Arr (dtype_of row) (tmap (cscale c) (data row)).

Definition scale_field (c : R) (B : ndarray (list (triple cval)))
  : ndarray (list (triple cval)) :=
  Arr (dtype_of B) (map (tmap (cscale c)) (data B)).


(** The contribution of edge [i] at observation point [p]: what the
    method [seg] that stands under the name [__solve_segment] returns for
    the stored discretization of the edge. *)
Definition contribution
    (seg : list vec3 -> vec3 -> C -> Outcome (ndarray (triple cval)))
    (dL : R) (w : World) (ip : nat * nat) : Outcome (triple cval) :=
  d <-- result (discretize dL (fst ip)) w ;;
  segment_i <-- setitem_slot (length (points w)) d ;;
  point <-- getitem (points w) (snd ip) ;;
  c <-- seg segment_i point (coil_I (wire w)) ;;
  Return (data c).



(** Two worlds that agree on what the specification calls the inputs of
    the solver: the wire coordinates, the wire current and the points. *)
Definition same_inputs (w1 w2 : World) : Prop :=
  coordz (wire w1) = coordz (wire w2) /\
  coil_I (wire w1) = coil_I (wire w2) /\
  points w1 = points w2.

(** The error kinds of the specification. *)
Definition InvalidParameter : exn := "InvalidParameter"%string.
Definition NumericSingularity : exn := "NumericSingularity"%string.

End Spec.

(** ** Sample inputs *)

Module Sample.

(** A coil object around the vertex list [cz], with unit current. *)
Definition wire_of (cz : list vec3) : Coil :=
  mkCoil 0 (RtoC 1) (T3 0 0 0) 1 (Z.of_nat (length cz)) "yz" cz.

Definition origin : vec3 := T3 0 0 0.

(** One edge of length one along the x axis, one observation point. *)
Definition unit_edge_world : World :=
  mkWorld (wire_of [origin; T3 1 0 0]) [T3 0 1 0].

(** The same edge, three observation points. *)
Definition three_point_world : World :=
  mkWorld (wire_of [origin; T3 1 0 0]) [T3 0 1 0; T3 0 2 0; T3 0 3 0].

(** One edge of length two along the x axis. *)
Definition long_edge_world : World :=
  mkWorld (wire_of [origin; T3 2 0 0]) [T3 0 1 0].

(** One edge of length zero. *)
Definition null_edge_world : World :=
  mkWorld (wire_of [origin; origin]) [T3 0 1 0].

(** A wire of a single vertex, two observation points. *)
Definition single_vertex_world : World :=
  mkWorld (wire_of [origin]) [T3 0 1 0; T3 0 2 0].

(** The same wire coordinates, current and points in another coil object. *)
Definition single_vertex_world' : World :=
  mkWorld (mkCoil 7 (RtoC 1) (T3 1 1 1) 5 1 "xy" [origin]) [T3 0 1 0; T3 0 2 0].

(** A coil of three sample points and radius two. *)
Definition small_coil : Coil :=
  mkCoil 1 (RtoC 1) origin 2 3 "yz" [T3 0 0 2; T3 0 0 (-2); T3 0 0 2].


(** A quadrature that returns zero on every profile. *)
Definition zero_quadrature (y : list Coil.float) (x : list R) : Outcome Coil.float :=
  Return (Coil.Fin 0).

(** No row has an infinite norm. *)
Definition no_inf_norm (row : triple cval) : bool := false.



End Sample.

(** ** Relating two runs *)

(** Two outcomes in step: both return, with related values, or both raise
    the same exception. *)
Inductive orel {A A' : Type} (R : A -> A' -> Prop) : Outcome A -> Outcome A' -> Prop :=
| orel_return (a : A) (a' : A') : R a a' -> orel R (Return a) (Return a')
| orel_raise (e : exn) : orel R (Raise e) (Raise e).

(** Two computations in step, one started in [w] and one in [w']: their
    outcomes are in step and each leaves its world as it found it. *)
Definition mrel {A A' : Type} (R : A -> A' -> Prop) (w w' : World)
    (m : M A) (m' : M A') : Prop :=
  orel R (fst (m w)) (fst (m' w')) /\ snd (m w) = w /\ snd (m' w') = w'.

(** ** [geom.py]: the constructor of [Coil] and the sample line *)

Module Geom.

(** [np.array(X, Y, Z)] with three positional arguments: the second stands
    where the element type is expected and the third where no positional
    argument is accepted; the call raises TypeError whatever the arrays. *)
Definition array_positional (X Y Z : list R) : Outcome (list vec3) :=
  Raise "TypeError"%string.

(** [np.zeros(n)] for an integer [n]. *)
Definition zeros_1d (n : Z) : Outcome (list R) :=
  _ <-- zeros_dims [n] ;; Return (repeat 0 (Z.to_nat n)).

(** [init_coil]: the value it stores in [self.coordz].  The three local
    names [X], [Y], [Z] are bound in one of three branches only. *)
Definition init_coil (center : vec3) (radius : R) (num_points : Z)
    (orientation : string) : Outcome (list vec3) :=
  t <-- Coil.linspace 0 (2 * PI) num_points ;;
  bound <--
    (if String.eqb orientation "xy" then
       let X := map (fun a => c0 center + radius * sin a) t in
       let Y := map (fun a => c1 center + radius * cos a) t in
       Z <-- zeros_1d num_points ;;
       Return (Some (X, Y, Z))
     else if String.eqb orientation "xz" then
       let X := map (fun a => c0 center + radius * sin a) t in
       let Z := map (fun a => c1 center + radius * cos a) t in
       Y <-- zeros_1d num_points ;;
       Return (Some (X, Y, Z))
     else if String.eqb orientation "yz" then
       X <-- zeros_1d num_points ;;
       let Y := map (fun a => c1 center + radius * sin a) t in
       let Z := map (fun a => c2 center + radius * cos a) t in
       Return (Some (X, Y, Z))
     else Return None) ;;
  match bound with
  | Some (X, Y, Z) => array_positional X Y Z
  | None => Raise "UnboundLocalError"%string
  end.

(** [Coil(center, radius, num_points, orientation)]: the new object, of
    identity [new_oid]. *)
Definition init (new_oid : nat) (center : vec3) (radius : R) (num_points : Z)
    (orientation : string) : Outcome Coil :=
  let I := (1, 0) in
  cz <-- init_coil center radius num_points orientation ;;
  Return (mkCoil new_oid I center radius num_points orientation cz).

(** Lines 84 to 88 of [calc_inductance]: the radial coordinates and the
    sample points built from them. *)
Definition radial_line (mutual_coil : Coil) : Outcome (list R * list vec3) :=
  points <-- Coil.linspace 0 (radius mutual_coil) (num_points mutual_coil) ;;
  let ones := repeat 1 (length points) in
  let x := map (fun one => one * c0 (center mutual_coil)) ones in
  let y := map (fun one => one * c1 (center mutual_coil)) ones in
  let z := map (fun ot => fst ot * c2 (center mutual_coil) + snd ot)
               (combine ones points) in
  let integral_points := Coil.columns x y z in
  Return (points, integral_points).

End Geom.

(** ** Notions used to state further properties *)

Module Notions.

(** The point [p] moved by [t] along each of the three axes. *)
Definition shift (p : vec3) (t : R) : vec3 :=
  T3 (c0 p + t) (c1 p + t) (c2 p + t).

(** The product of a real vector with a complex one, without conjugation. *)
Definition cdot (v : vec3) (F : triple C) : C :=
  (c0 v * fst (c0 F) + c1 v * fst (c1 F) + c2 v * fst (c2 F),
   c0 v * snd (c0 F) + c1 v * snd (c1 F) + c2 v * snd (c2 F)).

(** The length of edge [n] of a vertex list, zero where there is none. *)
Definition edge_length (cz : list vec3) (n : nat) : R :=
  match nth_error cz n, nth_error cz (n + 1) with
  | Some p1, Some p2 => norm (vsub p2 p1)
  | _, _ => 0
  end.

(** A wire of two vertices along the x axis, of length [L], with [P]
    observation points on the y axis. *)
Definition edge_world (L : R) (P : nat) : World :=
  mkWorld (Sample.wire_of [Sample.origin; T3 L 0 0])
          (map (fun i => T3 0 (INR (S i)) 0) (seq 0 P)).

End Notions.

(** * Properties of the model *)

(** ** Vectors and cells *)

Lemma triple_ext (A : Type) (s t : triple A) :
  c0 s = c0 t -> c1 s = c1 t -> c2 s = c2 t -> s = t.
Proof.
  destruct s, t; simpl; intros -> -> ->; reflexivity.
Qed.

Lemma sum_squares_zero (x y z : R) :
  x * x + y * y + z * z = 0 -> x = 0 /\ y = 0 /\ z = 0.
Proof.
  intros H.
  assert (Hx : 0 <= x * x) by nra.
  assert (Hy : 0 <= y * y) by nra.
  assert (Hz : 0 <= z * z) by nra.
  repeat split; nra.
Qed.

Lemma norm_nonneg (v : vec3) : 0 <= norm v.
Proof. apply sqrt_pos. Qed.

Lemma norm_zero_inv (v : vec3) : norm v = 0 -> v = T3 0 0 0.
Proof.
  unfold norm; intros H.
  apply sqrt_eq_0 in H; [| nra].
  apply sum_squares_zero in H as (H0 & H1 & H2).
  apply triple_ext; simpl; assumption.
Qed.

Lemma norm_sub_self (v : vec3) : norm (vsub v v) = 0.
Proof.
  unfold norm, vsub, tmap2; simpl.
  replace (_ + _ + _) with 0 by ring.
  apply sqrt_0.
Qed.

Lemma norm_sub_zero_inv (a b : vec3) : norm (vsub a b) = 0 -> a = b.
Proof.
  intros H; apply norm_zero_inv in H.
  unfold vsub, tmap2 in H; inversion H.
  apply triple_ext; lra.
Qed.

Lemma pow3_zero_inv (x : R) : x ^ 3 = 0 -> x = 0.
Proof.
  intros H; simpl in H.
  destruct (Rmult_integral _ _ H) as [| H1]; [assumption |].
  destruct (Rmult_integral _ _ H1) as [| H2]; [assumption | lra].
Qed.

Lemma fdiv_zero (x : R) : fdiv x 0 = None.
Proof.
  unfold fdiv; destruct (Req_dec_T 0 0); [reflexivity | contradiction].
Qed.

Lemma fdiv_nonzero (x y : R) : y <> 0 -> fdiv x y = Some (x / y).
Proof.
  intros H; unfold fdiv; destruct (Req_dec_T y 0); [contradiction | reflexivity].
Qed.

(** ** The field of one sub-segment *)

Import BiotSolver Spec.

(** The reference point [rp] of [__db_scale] is the midpoint. *)
Lemma midpoint_rp (seg_start seg_end : vec3) :
  vdivs (vadd seg_end seg_start) 2 = midpoint seg_start seg_end.
Proof. reflexivity. Qed.

(** At the middle of the sub-segment the divisor [r3] is zero, and every
    cell of the result is not a number. *)
Lemma db_scale_at_midpoint (seg_start seg_end : vec3) (I : C) :
  db_scale (seg_start, seg_end) (midpoint seg_start seg_end) I
  = Return (Arr complex128 (T3 None None None)).
Proof.
  unfold db_scale; simpl fst; simpl snd.
  rewrite midpoint_rp, norm_sub_self.
  replace (0 ^ 3) with 0 by ring.
  unfold tmap; simpl; rewrite !fdiv_zero; reflexivity.
Qed.

(** Away from the middle the divisor is not zero. *)
Lemma r3_nonzero (seg_start seg_end point : vec3) :
  point <> midpoint seg_start seg_end ->
  norm (vsub point (midpoint seg_start seg_end)) ^ 3 <> 0.
Proof.
  intros Hne H3; apply Hne.
  apply norm_sub_zero_inv, pow3_zero_inv, H3.
Qed.

Lemma db_scale_off_midpoint (seg_start seg_end point : vec3) (I : C) :
  point <> midpoint seg_start seg_end ->
  db_scale (seg_start, seg_end) point I
  = Return (Arr complex128
              (tmap Some (biot_savart_law seg_start seg_end point I))).
Proof.
  intros Hne; pose proof (r3_nonzero _ _ _ Hne) as H3.
  unfold db_scale, biot_savart_law; simpl fst; simpl snd.
  rewrite midpoint_rp.
  unfold tmap; simpl.
  rewrite !fdiv_nonzero by assumption.
  unfold cmul_cell, Cmul, RtoC; simpl.
  pose proof PI_neq0 as Hpi.
  assert (Hn : norm (vsub point (midpoint seg_start seg_end)) <> 0).
  { intros H0; apply H3; rewrite H0; ring. }
  do 2 f_equal.
  apply triple_ext; simpl; apply f_equal;
    apply injective_projections; simpl; field; auto.
Qed.

(** ** Computations in step *)

Lemma orel_eq (A : Type) (o o' : Outcome A) : orel eq o o' -> o = o'.
Proof. intros H; destruct H; congruence. Qed.

Lemma orel_refl (A : Type) (o : Outcome A) : orel eq o o.
Proof. destruct o; constructor; reflexivity. Qed.

Lemma orel_omap (A B : Type) (f : A -> B) (o : Outcome A) :
  orel (fun a b => b = f a) o (omap f o).
Proof. destruct o; constructor; reflexivity. Qed.

Lemma orel_omap_inv (A B : Type) (f : A -> B) (o : Outcome A) (o' : Outcome B) :
  orel (fun a b => b = f a) o o' -> o' = omap f o.
Proof. intros H; destruct H; simpl; congruence. Qed.

Section Step.

Variables (A A' B B' : Type).
Variables (w w' : World).

Lemma mrel_ret (R : A -> A' -> Prop) (a : A) (a' : A') :
  R a a' -> mrel R w w' (ret a) (ret a').
Proof. intros H; repeat split; simpl; constructor; assumption. Qed.

Lemma mrel_lift (R : A -> A' -> Prop) (o : Outcome A) (o' : Outcome A') :
  orel R o o' -> mrel R w w' (lift o) (lift o').
Proof. intros H; repeat split; assumption. Qed.

Lemma mrel_gets (R : A -> A' -> Prop) (f : World -> A) (f' : World -> A') :
  R (f w) (f' w') -> mrel R w w' (gets f) (gets f').
Proof. intros H; repeat split; simpl; constructor; assumption. Qed.

Lemma mrel_bind (R : A -> A' -> Prop) (S : B -> B' -> Prop)
    (m : M A) (m' : M A') (f : A -> M B) (f' : A' -> M B') :
  mrel R w w' m m' ->
  (forall a a', R a a' -> mrel S w w' (f a) (f' a')) ->
  mrel S w w' (bind m f) (bind m' f').
Proof.
  intros (Ho & Hw & Hw') Hf; unfold mrel, bind.
  destruct (m w) as [o v], (m' w') as [o' v']; simpl in *; subst v v'.
  destruct Ho as [a a' Ha | e].
  - apply Hf, Ha.
  - repeat split; simpl; constructor.
Qed.

End Step.

Lemma mrel_mfold (A A' B : Type) (R : A -> A' -> Prop) (w w' : World)
    (body : A -> B -> M A) (body' : A' -> B -> M A') (xs : list B) :
  (forall a a' x, R a a' -> mrel R w w' (body a x) (body' a' x)) ->
  forall a a', R a a' -> mrel R w w' (mfold body xs a) (mfold body' xs a').
Proof.
  intros Hbody; induction xs as [| x xs IH]; intros a a' Ha; simpl.
  - apply mrel_ret, Ha.
  - eapply mrel_bind; [apply Hbody, Ha | apply IH].
Qed.

Lemma orel_ofold (A A' B : Type) (R : A -> A' -> Prop)
    (body : A -> B -> Outcome A) (body' : A' -> B -> Outcome A') (xs : list B) :
  (forall a a' x, R a a' -> orel R (body a x) (body' a' x)) ->
  forall a a', R a a' -> orel R (ofold body xs a) (ofold body' xs a').
Proof.
  intros Hbody; induction xs as [| x xs IH]; intros a a' Ha; simpl.
  - constructor; assumption.
  - destruct (Hbody a a' x Ha) as [b b' Hb | e]; simpl.
    + apply IH, Hb.
    + constructor.
Qed.

Lemma orel_obind (A A' B B' : Type) (R : A -> A' -> Prop) (S : B -> B' -> Prop)
    (o : Outcome A) (o' : Outcome A') (f : A -> Outcome B) (f' : A' -> Outcome B') :
  orel R o o' ->
  (forall a a', R a a' -> orel S (f a) (f' a')) ->
  orel S (obind o f) (obind o' f').
Proof.
  intros Ho Hf; destruct Ho as [a a' Ha | e]; simpl.
  - apply Hf, Ha.
  - constructor.
Qed.

(** ** The discretizer *)

(** The discretizer reads the wire coordinates and nothing else, and it
    writes nothing. *)
Lemma discretize_step (dL : R) (n : nat) (w w' : World) :
  coordz (wire w) = coordz (wire w') ->
  mrel eq w w' (discretize dL n) (discretize dL n).
Proof.
  intros Hcz; unfold discretize.
  eapply mrel_bind with (R := eq); [apply mrel_gets, Hcz | intros cz ? <-].
  repeat first
    [ apply mrel_ret; reflexivity
    | apply mrel_lift, orel_refl
    | match goal with
      | |- mrel _ _ _ (if ?c then _ else _) (if ?c then _ else _) => destruct c
      end
    | eapply mrel_bind with (R := eq); [| intros ? ? <-] ].
Qed.

Lemma discretize_world (dL : R) (n : nat) (w : World) :
  snd (discretize dL n w) = w.
Proof.
  destruct (discretize_step dL n w w eq_refl) as (_ & H & _); exact H.
Qed.

(** The discretizer on an edge whose two ends are known. *)
Lemma discretize_edge (dL : R) (n : nat) (w : World) (p1 p2 : vec3) :
  nth_error (coordz (wire w)) n = Some p1 ->
  nth_error (coordz (wire w)) (n + 1) = Some p2 ->
  discretize dL n w =
  (if Rlt_dec (norm (vsub p2 p1)) dL then Return [p1; p2]
   else
     n_segments <-- int_floor_div (norm (vsub p2 p1)) dL ;;
     v <-- mul_broadcast (vdivs (vscale dL (vsub p2 p1)) (norm (vsub p2 p1)))
                         (arange 1 (n_segments + 1)) ;;
     if Req_dec_T (IZR n_segments) (norm (vsub p2 p1) / dL)
     then Return (add_column_row p1 v)
     else Return (add_column_row p1 v ++ [p2]),
   w).
Proof.
  intros H1 H2; unfold discretize, bind, gets, lift, ret, getitem.
  assert (Hlen : (n + 1 < length (coordz (wire w)))%nat).
  { apply nth_error_Some; congruence. }
  destruct (Nat.ltb_spec (length (coordz (wire w))) (n + 1)); [lia |].
  rewrite H1, H2.
  destruct (Rlt_dec _ dL); [reflexivity |].
  destruct (int_floor_div _ dL) as [k |]; simpl; [| reflexivity].
  destruct (mul_broadcast _ _) as [v |]; simpl; [| reflexivity].
  destruct (Req_dec_T _ _); reflexivity.
Qed.

(** An edge shorter than the step is returned as it is. *)
Lemma discretize_short (dL : R) (n : nat) (w : World) (p1 p2 : vec3) :
  nth_error (coordz (wire w)) n = Some p1 ->
  nth_error (coordz (wire w)) (n + 1) = Some p2 ->
  norm (vsub p2 p1) < dL ->
  discretize dL n w = (Return [p1; p2], w).
Proof.
  intros H1 H2 Hlt; rewrite (discretize_edge dL n w p1 p2 H1 H2).
  destruct (Rlt_dec _ dL); [reflexivity | contradiction].
Qed.

(** A step of zero is refused by the conversion of the quotient to an
    integer. *)
Lemma discretize_zero_step (n : nat) (w : World) (p1 p2 : vec3) :
  nth_error (coordz (wire w)) n = Some p1 ->
  nth_error (coordz (wire w)) (n + 1) = Some p2 ->
  discretize 0 n w =
  (Raise (if Req_dec_T (norm (vsub p2 p1)) 0 then "ValueError"
          else "OverflowError")%string, w).
Proof.
  intros H1 H2; rewrite (discretize_edge 0 n w p1 p2 H1 H2).
  pose proof (norm_nonneg (vsub p2 p1)).
  destruct (Rlt_dec _ 0); [lra |].
  unfold int_floor_div.
  destruct (Req_dec_T 0 0); [| contradiction].
  destruct (Req_dec_T _ 0); reflexivity.
Qed.

(** What the discretizer returns has two, three or four columns. *)
Lemma discretize_columns (dL : R) (n : nat) (w : World) (p1 p2 : vec3)
    (d : list vec3) :
  nth_error (coordz (wire w)) n = Some p1 ->
  nth_error (coordz (wire w)) (n + 1) = Some p2 ->
  result (discretize dL n) w = Return d ->
  (2 <= length d <= 4)%nat.
Proof.
  intros H1 H2; unfold result; rewrite (discretize_edge dL n w p1 p2 H1 H2); simpl.
  destruct (Rlt_dec _ dL); [intros [= <-]; simpl; lia |].
  destruct (int_floor_div _ dL) as [k |]; simpl; [| discriminate].
  destruct (mul_broadcast _ _) as [v |]; simpl; [| discriminate].
  destruct (Req_dec_T _ _); intros [= <-]; simpl; lia.
Qed.

(** ** The field of a discretized edge *)

Lemma db_scale_complex (seg : vec3 * vec3) (point : vec3) (I : C) :
  exists dB, db_scale seg point I = Return (Arr complex128 dB).
Proof. eexists; reflexivity. Qed.

Lemma range_pred_length (A : Type) (a b : A) (rest : list A) :
  range (Z.of_nat (length (a :: b :: rest)) - 1) = 0%nat :: seq 1 (length rest).
Proof.
  unfold range.
  replace (Z.to_nat _) with (S (length rest)) by (simpl length; lia).
  reflexivity.
Qed.

(** The accumulator of [__solve_segment] is a float array and the field
    of a sub-segment is complex: the first in-place addition is refused. *)
Lemma solve_segment_raises (d_segment : list vec3) (point : vec3) (I : C) :
  (2 <= length d_segment)%nat ->
  solve_segment d_segment point I = Raise "TypeError"%string.
Proof.
  destruct d_segment as [| a [| b rest]]; simpl; try lia; intros _.
  unfold solve_segment; rewrite range_pred_length.
  destruct (db_scale_complex (a, b) point I) as [dB HdB].
  cbn -[db_scale]; rewrite HdB; reflexivity.
Qed.

(** With fewer than two columns there is no sub-segment to add. *)
Lemma solve_segment_empty (d_segment : list vec3) (point : vec3) (I : C) :
  (length d_segment <= 1)%nat ->
  solve_segment d_segment point I = Return zeros_row.
Proof.
  intros H; unfold solve_segment, range.
  replace (Z.to_nat _) with 0%nat by lia.
  reflexivity.
Qed.

Lemma setitem_slot_inv (P : nat) (value slot : list vec3) :
  setitem_slot P value = Return slot ->
  (2 <= length value)%nat ->
  P = 3%nat /\ slot = value /\ length value = 3%nat.
Proof.
  unfold setitem_slot.
  destruct (Nat.eqb_spec P 3); [| discriminate].
  destruct value as [| a [| b [| c [| ? ?]]]]; simpl; try discriminate; try lia.
  intros [= <-] _; auto.
Qed.

(** ** The solver never completes an edge *)

Lemma range_succ (n : Z) : (1 <= n)%Z -> range n = 0%nat :: seq 1 (Z.to_nat n - 1).
Proof.
  intros H; unfold range.
  destruct (Z.to_nat n) as [| k] eqn:E; [lia |].
  simpl; rewrite Nat.sub_0_r; reflexivity.
Qed.

(** Whatever the points and the step, a wire with an edge makes [solve]
    raise: the first edge is refused by the discretizer, by the store into
    [segments] or by the accumulation in [__solve_segment]. *)
Lemma solve_raises_on_edge (dL : R) (w : World) :
  (2 <= length (coordz (wire w)))%nat ->
  exists e, result (solve dL) w = Raise e.
Proof.
  intros HN; unfold result, solve, bind, gets; simpl.
  unfold lift at 1.
  destruct (zeros_dims _) as [[] |]; simpl; [| eexists; reflexivity].
  rewrite range_succ by lia; simpl mfold; unfold bind at 1.
  destruct (coordz (wire w)) as [| p1 [| p2 rest]] eqn:Hcz; simpl in HN; try lia.
  assert (H1 : nth_error (coordz (wire w)) 0 = Some p1) by (rewrite Hcz; reflexivity).
  assert (H2 : nth_error (coordz (wire w)) (0 + 1) = Some p2) by (rewrite Hcz; reflexivity).
  pose proof (discretize_columns dL 0 w p1 p2) as Hcols.
  pose proof (discretize_world dL 0 w) as Hw.
  unfold result in Hcols.
  destruct (discretize dL 0 w) as [[d | e] w1]; simpl in *; subst w1;
    [| eexists; reflexivity].
  specialize (Hcols d H1 H2 eq_refl).
  unfold bind, lift; simpl.
  destruct (setitem_slot _ d) as [slot |] eqn:Hslot; simpl; [| eexists; reflexivity].
  apply setitem_slot_inv in Hslot as (HP & -> & Hd); [| lia].
  rewrite HP; simpl.
  destruct (points w) as [| q0 qs] eqn:Hpts; simpl in HP; [discriminate |].
  unfold bind, lift, gets; simpl.
  rewrite Hpts; unfold getitem at 1; simpl nth_error; cbv iota.
  rewrite solve_segment_raises by lia; simpl.
  eexists; reflexivity.
Qed.

(** ** Runs on the sample inputs *)

Import Sample.

Lemma norm_along_x (a : R) : 0 <= a -> norm (vsub (T3 a 0 0) origin) = a.
Proof.
  intros Ha; unfold norm, vsub, tmap2, origin; simpl.
  replace (_ + _ + _) with (a * a) by ring.
  apply sqrt_square, Ha.
Qed.

Lemma norm_null : norm (vsub origin origin) = 0.
Proof. apply norm_sub_self. Qed.

Lemma unit_edge_short_of_two :
  discretize 2 0 unit_edge_world = (Return [origin; T3 1 0 0], unit_edge_world).
Proof.
  apply discretize_short; try reflexivity.
  rewrite norm_along_x; lra.
Qed.

Lemma long_edge_step_one :
  discretize 1 0 long_edge_world = (Raise "ValueError"%string, long_edge_world).
Proof.
  rewrite (discretize_edge 1 0 long_edge_world origin (T3 2 0 0)) by reflexivity.
  rewrite norm_along_x by lra.
  destruct (Rlt_dec 2 1); [lra |].
  unfold int_floor_div; destruct (Req_dec_T 1 0); [lra |].
  replace (2 / 1) with (IZR 2) by lra.
  unfold floor; rewrite ZfloorZ; reflexivity.
Qed.

Lemma unit_edge_step_one (w : World) :
  coordz (wire w) = [origin; T3 1 0 0] ->
  discretize 1 0 w = (Return [T3 1 1 1; T3 0 0 0; T3 0 0 0], w).
Proof.
  intros Hcz.
  rewrite (discretize_edge 1 0 w origin (T3 1 0 0)) by (rewrite Hcz; reflexivity).
  rewrite norm_along_x by lra.
  destruct (Rlt_dec 1 1); [lra |].
  unfold int_floor_div; destruct (Req_dec_T 1 0); [lra |].
  replace (1 / 1) with (IZR 1) by lra.
  unfold floor; rewrite ZfloorZ; simpl.
  destruct (Req_dec_T 1 1); [| contradiction].
  do 2 f_equal; unfold add_column_row, origin, tmap; simpl.
  repeat (f_equal; try (apply triple_ext; simpl; lra)).
Qed.

Lemma unit_edge_step_zero :
  discretize 0 0 unit_edge_world = (Raise "OverflowError"%string, unit_edge_world).
Proof.
  rewrite (discretize_zero_step 0 unit_edge_world origin (T3 1 0 0)) by reflexivity.
  rewrite norm_along_x by lra.
  destruct (Req_dec_T 1 0); [lra | reflexivity].
Qed.

Lemma null_edge_step_one :
  discretize 1 0 null_edge_world = (Return [origin; origin], null_edge_world).
Proof.
  apply discretize_short; try reflexivity.
  rewrite norm_null; lra.
Qed.

Lemma solve_unit_edge :
  result (solve 2) unit_edge_world = Raise "ValueError"%string.
Proof.
  unfold result, solve, bind, gets; simpl.
  unfold bind; rewrite unit_edge_short_of_two; reflexivity.
Qed.

Lemma solve_three_points :
  result (solve 1) three_point_world = Raise "TypeError"%string.
Proof.
  unfold result, solve, bind, gets; simpl.
  unfold bind; rewrite (unit_edge_step_one three_point_world eq_refl).
  unfold lift, gets; simpl; reflexivity.
Qed.

(** The field of the sub-segment from (0,0,0) to (2,0,0) at the point
    (1,1,0), for a unit current: [1e-7 * (0, 0, 2)]. *)
Example db_scale_above_midpoint :
  db_scale (origin, T3 2 0 0) (T3 1 1 0) (RtoC 1)
  = Return (Arr complex128 (T3 (Some (0, 0)) (Some (0, 0)) (Some (2e-7, 0)))).
Proof.
  assert (Hn : norm (vsub (T3 1 1 0) (midpoint origin (T3 2 0 0))) = 1).
  { unfold norm, vsub, midpoint, vdivs, vadd, tmap, tmap2, origin; simpl.
    replace (_ + _ + _) with 1 by field; apply sqrt_1. }
  rewrite db_scale_off_midpoint.
  - unfold biot_savart_law; rewrite Hn.
    unfold cross, vsub, midpoint, vdivs, vadd, tmap, tmap2, origin, RtoC; simpl.
    do 2 f_equal; apply triple_ext; simpl; apply f_equal;
      apply injective_projections; simpl; field.
  - intros H; apply (f_equal c1) in H; simpl in H; lra.
Qed.

Lemma solve_single_vertex :
  solve 1 single_vertex_world = (Return (zeros_rows 2), single_vertex_world).
Proof. reflexivity. Qed.

(** ** Two runs of the solver in step *)

(** Two runs of [solve] stay in step when their worlds agree on the wire
    coordinates and on the points, and their currents are related in a way
    that [__solve_segment] and the accumulation respect. *)
Lemma solve_step
    (RI : C -> C -> Prop)
    (RS : ndarray (triple cval) -> ndarray (triple cval) -> Prop)
    (RB : ndarray (list (triple cval)) -> ndarray (list (triple cval)) -> Prop)
    (dL : R) (w w' : World) :
  coordz (wire w) = coordz (wire w') ->
  points w = points w' ->
  RI (coil_I (wire w)) (coil_I (wire w')) ->
  (forall d p I I', RI I I' -> orel RS (solve_segment d p I) (solve_segment d p I')) ->
  (forall B B' x x', RB B B' -> RS x x' -> orel RB (iadd_rows B x) (iadd_rows B' x')) ->
  (forall P, RB (zeros_rows P) (zeros_rows P)) ->
  mrel RB w w' (solve dL) (solve dL).
Proof.
  intros Hcz Hpts HI Hseg Hadd Hzero; unfold solve.
  eapply mrel_bind with (R := eq); [apply mrel_gets, Hpts | intros pts ? <-].
  eapply mrel_bind with (R := eq); [apply mrel_gets, Hcz | intros cz ? <-].
  eapply mrel_bind with (R := eq); [apply mrel_gets, Hpts | intros pts2 ? <-].
  eapply mrel_bind with (R := eq); [apply mrel_lift, orel_refl | intros _ _ _].
  apply mrel_mfold; [| apply Hzero].
  intros B B' i HB.
  eapply mrel_bind with (R := eq); [apply discretize_step, Hcz | intros d ? <-].
  eapply mrel_bind with (R := eq); [apply mrel_gets, Hpts | intros pts3 ? <-].
  eapply mrel_bind with (R := eq); [apply mrel_lift, orel_refl | intros slot ? <-].
  eapply mrel_bind with (R := eq); [apply mrel_gets, Hpts | intros pts4 ? <-].
  apply mrel_mfold; [| exact HB].
  intros B1 B1' p HB1.
  eapply mrel_bind with (R := eq); [apply mrel_gets, Hpts | intros pts5 ? <-].
  eapply mrel_bind with (R := eq); [apply mrel_lift, orel_refl | intros point ? <-].
  eapply mrel_bind with (R := RI); [apply mrel_gets, HI | intros I I' HII].
  eapply mrel_bind with (R := RS); [apply mrel_lift, Hseg, HII | intros x x' Hx].
  apply mrel_lift, Hadd; assumption.
Qed.

(** Worlds with the same inputs: the same outcome, and no world changes. *)
Lemma solve_same_inputs (dL : R) (w w' : World) :
  same_inputs w w' -> mrel eq w w' (solve dL) (solve dL).
Proof.
  intros (Hcz & HI & Hpts).
  apply solve_step with (RI := eq) (RS := eq); auto.
  - intros d p I ? <-; apply orel_refl.
  - intros B ? x ? <- <-; apply orel_refl.
Qed.

Lemma solve_world (dL : R) (w : World) : world_after (solve dL) w = w.
Proof.
  destruct (solve_same_inputs dL w w) as (_ & H & _); [| exact H].
  repeat split.
Qed.

(** ** Linearity in the current *)

Lemma cscale_czero (c : R) : cscale c czero = czero.
Proof.
  unfold cscale, czero, Cmul, RtoC; simpl.
  f_equal; apply injective_projections; simpl; ring.
Qed.

Lemma cscale_cadd (c : R) (a b : cval) :
  cscale c (cadd a b) = cadd (cscale c a) (cscale c b).
Proof.
  destruct a as [[ar ai] |], b as [[br bi] |]; simpl; try reflexivity.
  unfold Cmul, Cadd, RtoC; simpl.
  f_equal; apply injective_projections; simpl; ring.
Qed.

Lemma cmul_cell_scaled (c : R) (k I : C) (x : option R) :
  cmul_cell (Cmul k (Cmul (RtoC c) I)) x = cscale c (cmul_cell (Cmul k I) x).
Proof.
  destruct x as [x |]; simpl; [| reflexivity].
  destruct k as [kr ki], I as [Ir Ii]; unfold Cmul, RtoC; simpl.
  f_equal; apply injective_projections; simpl; ring.
Qed.

(** The field of a sub-segment is linear in the current, also where it is
    not a number. *)
Lemma db_scale_linear (c : R) (seg : vec3 * vec3) (point : vec3) (I : C) :
  db_scale seg point (Cmul (RtoC c) I) = omap (scale_row c) (db_scale seg point I).
Proof.
  unfold db_scale, scale_row; simpl.
  do 2 f_equal; apply triple_ext; simpl; apply cmul_cell_scaled.
Qed.

Lemma iadd_row_linear (c : R) (B x : ndarray (triple cval)) :
  iadd_row (scale_row c B) (scale_row c x) = omap (scale_row c) (iadd_row B x).
Proof.
  unfold iadd_row, scale_row; simpl.
  destruct (can_cast_same_kind _ _); simpl; [| reflexivity].
  do 2 f_equal; apply triple_ext; simpl; symmetry; apply cscale_cadd.
Qed.

Lemma iadd_rows_linear (c : R) (B : ndarray (list (triple cval)))
    (x : ndarray (triple cval)) :
  iadd_rows (scale_field c B) (scale_row c x) = omap (scale_field c) (iadd_rows B x).
Proof.
  unfold iadd_rows, scale_field, scale_row; simpl.
  destruct (can_cast_same_kind _ _); simpl; [| reflexivity].
  do 2 f_equal; rewrite !map_map; apply map_ext; intros row.
  apply triple_ext; simpl; symmetry; apply cscale_cadd.
Qed.

Lemma scale_zeros_row (c : R) : scale_row c zeros_row = zeros_row.
Proof.
  unfold scale_row, zeros_row, tmap; cbn [data dtype_of c0 c1 c2].
  rewrite cscale_czero; reflexivity.
Qed.

Lemma scale_zeros_rows (c : R) (P : nat) : scale_field c (zeros_rows P) = zeros_rows P.
Proof.
  unfold scale_field, zeros_rows; cbn [data dtype_of]; f_equal.
  rewrite map_repeat; unfold tmap; cbn [c0 c1 c2].
  rewrite cscale_czero; reflexivity.
Qed.

Lemma solve_segment_linear (c : R) (d : list vec3) (point : vec3) (I : C) :
  orel (fun x x' => x' = scale_row c x)
       (solve_segment d point I) (solve_segment d point (Cmul (RtoC c) I)).
Proof.
  unfold solve_segment.
  apply orel_ofold; [| symmetry; apply scale_zeros_row].
  intros B ? i ->.
  eapply orel_obind with (R := eq); [apply orel_refl | intros a ? <-].
  eapply orel_obind with (R := eq); [apply orel_refl | intros b ? <-].
  eapply orel_obind with (R := fun x x' => x' = scale_row c x).
  - rewrite db_scale_linear; apply orel_omap.
  - intros dB ? ->; rewrite iadd_row_linear; apply orel_omap.
Qed.

Lemma solve_scaled (c dL : R) (w : World) :
  mrel (fun B B' => B' = scale_field c B) w (scale_current c w) (solve dL) (solve dL).
Proof.
  apply solve_step with (RI := fun I I' => I' = Cmul (RtoC c) I)
                        (RS := fun x x' => x' = scale_row c x);
    try reflexivity.
  - intros d p I ? ->; apply solve_segment_linear.
  - intros B ? x ? -> ->; rewrite iadd_rows_linear; apply orel_omap.
  - intros P; symmetry; apply scale_zeros_rows.
Qed.

(** ** The accumulator holds one sum in every row *)









(** [solve] is the two loops around the method of its own class. *)
Lemma solve_with_own_method : solve = solve_with solve_segment.
Proof. reflexivity. Qed.


(** ** The inductance routine *)

(** The class has no attribute of the name [Solve]. *)
Lemma getattr_Solve : getattr "Solve" = Raise "AttributeError"%string.
Proof. reflexivity. Qed.

Lemma calc_inductance_raises
    (simps : list Coil.float -> list R -> Outcome Coil.float)
    (inf_norm : triple cval -> bool) (self mutual_coil : Coil) :
  Coil.calc_inductance simps inf_norm self mutual_coil
  = Raise (if (num_points mutual_coil <? 0)%Z then "ValueError"
           else "AttributeError")%string.
Proof.
  unfold Coil.calc_inductance, Coil.linspace.
  destruct (num_points mutual_coil <? 0)%Z; reflexivity.
Qed.

(** The self-inductance of the sample coil: no value, an AttributeError. *)
Example calc_inductance_small_coil :
  Coil.calc_inductance zero_quadrature no_inf_norm small_coil small_coil
  = Raise "AttributeError"%string.
Proof. rewrite calc_inductance_raises; reflexivity. Qed.








Lemma Cabs_one : Cabs (RtoC 1) = 1.
Proof.
  unfold Cabs, RtoC; simpl.
  replace (1 * 1 + 0 * 0) with 1 by ring; apply sqrt_1.
Qed.

Lemma truncate_falling_profile :
  Coil.truncate_at_peak [Coil.Fin 3; Coil.Fin 2; Coil.Fin 1] [0; 1; 2]
  = Return ([Coil.Fin 3], [0]).
Proof.
  unfold Coil.truncate_at_peak, Coil.py_max, Coil.float_gt, Coil.float_eq; simpl.
  destruct (Rlt_dec 3 2); [lra |].
  destruct (Rlt_dec 3 1); [lra |]; simpl.
  destruct (Req_dec_T 3 3); [reflexivity | contradiction].
Qed.

Lemma integrate_falling_profile :
  Coil.integrate_profile zero_quadrature true (RtoC 1) [0; 1; 2]
                         [Coil.Fin 3; Coil.Fin 2; Coil.Fin 1]
  = Return (Coil.Fin 0).
Proof.
  unfold Coil.integrate_profile; rewrite truncate_falling_profile.
  cbn [obind fst snd map]; unfold Coil.mul_arrays; cbn [length Nat.eqb obind].
  unfold zero_quadrature; cbn [obind Coil.float_div].
  rewrite Cabs_one; destruct (Req_dec_T 1 0); [lra |].
  do 2 f_equal; lra.
Qed.

(** * The claims *)

(** C1 (defect of the code).  The claim promises one field vector per
    observation point for every wire of at least two vertices, every
    non-empty point set and every positive step.  On the wire of the two
    vertices (0,0,0) and (1,0,0), which meets these conditions with any
    points, [solve] returns no field vector.  With the single point
    (0,1,0) and the step 2 it raises ValueError when it stores the
    discretized edge; with the three points (0,1,0), (0,2,0), (0,3,0) and
    the step 1 it raises TypeError when [__solve_segment] adds the first
    field to its accumulator. *)
Theorem solve_fails_on_unit_edge :
  (2 <= length (coordz (wire unit_edge_world)))%nat /\
  points unit_edge_world <> [] /\
  points three_point_world <> [] /\
  result (solve 2) unit_edge_world = Raise "ValueError"%string /\
  result (solve 1) three_point_world = Raise "TypeError"%string.
Proof.
  repeat split.
  - simpl; lia.
  - discriminate.
  - discriminate.
  - apply solve_unit_edge.
  - apply solve_three_points.
Qed.

(** C2 (defect of the code).  The claim promises the points
    [P0, P0 + v, ..., P0 + k v] along the edge.  On the edge from (0,0,0)
    to (2,0,0) with step 1 the discretizer raises ValueError; on the edge
    from (0,0,0) to (1,0,0) with step 1 it returns the three points
    (1,1,1), (0,0,0), (0,0,0), where the claim gives (0,0,0), (1,0,0). *)
Theorem discretize_breaks_on_whole_steps :
  result (discretize 1 0) long_edge_world = Raise "ValueError"%string /\
  result (discretize 1 0) unit_edge_world
  = Return [T3 1 1 1; T3 0 0 0; T3 0 0 0].
Proof.
  unfold result.
  rewrite long_edge_step_one, (unit_edge_step_one unit_edge_world eq_refl).
  split; reflexivity.
Qed.



(** C4 (amended).  When the observation point is the middle of the
    sub-segment, [__db_scale] raises nothing: it returns a complex vector
    whose three components are not numbers. *)
Theorem db_scale_midpoint_not_a_number (seg_start seg_end : vec3) (I : C) :
  db_scale (seg_start, seg_end) (midpoint seg_start seg_end) I
  = Return (Arr complex128 (T3 None None None)).
Proof. apply db_scale_at_midpoint. Qed.

(** C4, counterexample to the claim as stated: at the middle (1,0,0) of
    the sub-segment from (0,0,0) to (2,0,0) the call returns, and so does
    not fail with NumericSingularity. *)
Lemma db_scale_midpoint_returns :
  T3 1 0 0 = midpoint origin (T3 2 0 0) /\
  db_scale (origin, T3 2 0 0) (T3 1 0 0) (RtoC 1)
  = Return (Arr complex128 (T3 None None None)) /\
  db_scale (origin, T3 2 0 0) (T3 1 0 0) (RtoC 1) <> Raise NumericSingularity.
Proof.
  assert (Hmid : T3 1 0 0 = midpoint origin (T3 2 0 0)).
  { apply triple_ext; simpl; lra. }
  split; [exact Hmid |].
  rewrite Hmid, db_scale_at_midpoint; split; [reflexivity | discriminate].
Qed.

(** C5 (amended).  The discretizer defines no InvalidParameter error.  With
    a step of zero it returns no point sequence: the conversion of the
    quotient [L / dL] to an integer raises OverflowError, or ValueError
    when the edge has length zero too.  An edge of length zero with a
    positive step is not refused: its two coinciding ends are returned. *)
Theorem discretize_degenerate_inputs (dL : R) (n : nat) (w : World)
    (p1 p2 : vec3) :
  nth_error (coordz (wire w)) n = Some p1 ->
  nth_error (coordz (wire w)) (n + 1) = Some p2 ->
  (dL = 0 ->
   result (discretize dL n) w
   = Raise (if Req_dec_T (norm (vsub p2 p1)) 0 then "ValueError"
            else "OverflowError")%string) /\
  (norm (vsub p2 p1) = 0 -> 0 < dL ->
   result (discretize dL n) w = Return [p1; p2]).
Proof.
  intros H1 H2; unfold result; split.
  - intros ->; rewrite (discretize_zero_step n w p1 p2 H1 H2); reflexivity.
  - intros HL HdL; rewrite (discretize_short dL n w p1 p2 H1 H2); [reflexivity |].
    rewrite HL; exact HdL.
Qed.

(** The edge of length zero: ValueError with the step 0, the two ends with
    the step 1. *)
Lemma discretize_degenerate_inputs_witness :
  result (discretize 0 0) null_edge_world = Raise "ValueError"%string /\
  result (discretize 1 0) null_edge_world = Return [origin; origin].
Proof.
  split.
  - rewrite (proj1 (discretize_degenerate_inputs 0 0 null_edge_world origin origin
                      eq_refl eq_refl) eq_refl).
    destruct (Req_dec_T (norm (vsub origin origin)) 0) as [| Hne];
      [reflexivity | destruct (Hne norm_null)].
  - apply (discretize_degenerate_inputs 1 0 null_edge_world origin origin);
      [reflexivity | reflexivity | apply norm_null | lra].
Defined.

(** C5, counterexample to the claim as stated: the edge from (0,0,0) to
    (0,0,0) has length zero, and with step 1 the discretizer returns its
    two ends instead of failing with InvalidParameter. *)
Lemma discretize_null_edge_returns :
  norm (vsub origin origin) = 0 /\
  result (discretize 1 0) null_edge_world = Return [origin; origin] /\
  result (discretize 1 0) null_edge_world <> Raise InvalidParameter /\
  result (discretize 0 0) unit_edge_world = Raise "OverflowError"%string /\
  result (discretize 0 0) unit_edge_world <> Raise InvalidParameter.
Proof.
  unfold result; rewrite null_edge_step_one, unit_edge_step_zero; repeat split.
  - apply norm_null.
  - discriminate.
  - discriminate.
Qed.

(** C6.  Away from the middle of the sub-segment, [__db_scale] returns the
    field of the discretized Biot-Savart law,
    [(mu0 / 4 pi) * I * (vdL x r) / |r|^3] with [mu0 = 4 pi 1e-7],
    [vdL = end - start], [rp = (end + start) / 2] and [r = point - rp]. *)
Theorem db_scale_biot_savart (seg_start seg_end point : vec3) (I : C) :
  point <> midpoint seg_start seg_end ->
  db_scale (seg_start, seg_end) point I
  = Return (Arr complex128
              (tmap Some (biot_savart_law seg_start seg_end point I))).
Proof. apply db_scale_off_midpoint. Qed.

(** The point (1,1,0) lies off the middle (1,0,0) of the sub-segment. *)
Lemma db_scale_biot_savart_witness :
  T3 1 1 0 <> midpoint origin (T3 2 0 0) /\
  db_scale (origin, T3 2 0 0) (T3 1 1 0) (RtoC 1)
  = Return (Arr complex128
              (tmap Some (biot_savart_law origin (T3 2 0 0) (T3 1 1 0) (RtoC 1)))).
Proof.
  assert (Hoff : T3 1 1 0 <> midpoint origin (T3 2 0 0)).
  { intros H; apply (f_equal c1) in H; simpl in H; lra. }
  split; [exact Hoff |].
  apply (db_scale_biot_savart origin (T3 2 0 0) (T3 1 1 0) (RtoC 1) Hoff).
Defined.

(** C7.  Scaling the current of the wire by a real factor [c] scales the
    outcome of [solve] by [c]: the same exception, or the returned field
    with every cell multiplied by [c].  The field of every sub-segment,
    which [solve] adds up, is scaled in the same way. *)
Theorem solve_linear_in_current (c dL : R) (w : World) :
  result (solve dL) (scale_current c w)
  = omap (scale_field c) (result (solve dL) w) /\
  forall (seg : vec3 * vec3) (point : vec3) (I : C),
    db_scale seg point (Cmul (RtoC c) I)
    = omap (scale_row c) (db_scale seg point I).
Proof.
  split.
  - destruct (solve_scaled c dL w) as (H & _ & _).
    apply orel_omap_inv, H.
  - intros seg point I; apply db_scale_linear.
Qed.

(** C8 (defect of the code).  The claim promises a float for every pair of
    coils.  [calc_inductance] asks the solver object for the method
    [Solve]; the class spells it [solve].  The call raises AttributeError
    (ValueError for a negative number of sample points) for every pair of
    coils and every quadrature, before any field is computed. *)
Theorem calc_inductance_never_returns
    (simps : list Coil.float -> list R -> Outcome Coil.float)
    (inf_norm : triple cval -> bool) (self mutual_coil : Coil) :
  Coil.calc_inductance simps inf_norm self mutual_coil
  = Raise (if (num_points mutual_coil <? 0)%Z then "ValueError"
           else "AttributeError")%string.
Proof. apply calc_inductance_raises. Qed.




(** C10.  A run of [solve] leaves the wire and the points as it found
    them, a second run on what the first one left returns the same outcome,
    and the outcome is the same in every world with the same wire
    coordinates, wire current and points. *)
Theorem solve_reads_only_its_inputs (dL : R) (w w' : World) :
  same_inputs w w' ->
  world_after (solve dL) w = w /\
  result (solve dL) (world_after (solve dL) w) = result (solve dL) w /\
  result (solve dL) w' = result (solve dL) w.
Proof.
  intros Hsame; repeat split.
  - apply solve_world.
  - rewrite solve_world; reflexivity.
  - destruct (solve_same_inputs dL w w' Hsame) as (H & _ & _).
    symmetry; apply orel_eq, H.
Qed.

(** Two coil objects that differ in all but their coordinates and current. *)
Lemma solve_reads_only_its_inputs_witness :
  same_inputs single_vertex_world single_vertex_world' /\
  wire single_vertex_world <> wire single_vertex_world' /\
  world_after (solve 1) single_vertex_world = single_vertex_world /\
  result (solve 1) (world_after (solve 1) single_vertex_world)
  = result (solve 1) single_vertex_world /\
  result (solve 1) single_vertex_world' = result (solve 1) single_vertex_world.
Proof.
  assert (Hsame : same_inputs single_vertex_world single_vertex_world').
  { repeat split. }
  split; [exact Hsame |].
  split; [intros H; apply (f_equal oid) in H; discriminate |].
  apply (solve_reads_only_its_inputs 1 _ _ Hsame).
Defined.

(** * Further properties *)

Import Notions.

(** ** The field of one sub-segment *)

(** A cell of the field when the component of the cross product is
    multiplied by [k]. *)
Lemma cell_scaled (k : R) (z : C) (x x' r3 : R) :
  x' = k * x ->
  cmul_cell z (fdiv x' r3) = cscale k (cmul_cell z (fdiv x r3)).
Proof.
  intros ->; unfold fdiv; destruct (Req_dec_T r3 0); [reflexivity |].
  destruct z as [zr zi]; unfold cmul_cell, cscale, Cmul, RtoC; simpl.
  f_equal; apply injective_projections; simpl; field; assumption.
Qed.

Lemma rp_commutes (a b : vec3) : vdivs (vadd a b) 2 = vdivs (vadd b a) 2.
Proof. apply triple_ext; simpl; lra. Qed.

Lemma db_scale_swap (seg_start seg_end point : vec3) (I : C) :
  db_scale (seg_end, seg_start) point I
  = omap (scale_row (-1)) (db_scale (seg_start, seg_end) point I).
Proof.
  unfold db_scale, scale_row; cbn [fst snd omap data dtype_of].
  rewrite (rp_commutes seg_start seg_end).
  do 2 f_equal; apply triple_ext; cbn [tmap c0 c1 c2 cross];
    apply cell_scaled; unfold vsub, tmap2; simpl; ring.
Qed.

Lemma db_scale_moved (t seg_start seg_end point : vec3) (I : C) :
  db_scale (vadd seg_start t, vadd seg_end t) (vadd point t) I
  = db_scale (seg_start, seg_end) point I.
Proof.
  unfold db_scale; cbn [fst snd].
  replace (vsub (vadd seg_end t) (vadd seg_start t)) with (vsub seg_end seg_start)
    by (apply triple_ext; simpl; lra).
  replace (vsub (vadd point t) (vdivs (vadd (vadd seg_end t) (vadd seg_start t)) 2))
    with (vsub point (vdivs (vadd seg_end seg_start) 2))
    by (apply triple_ext; simpl; lra).
  reflexivity.
Qed.

Lemma norm_vscale (k : R) (v : vec3) : 0 <= k -> norm (vscale k v) = k * norm v.
Proof.
  intros Hk; unfold norm, vscale, tmap; simpl.
  replace (k * c0 v * (k * c0 v) + k * c1 v * (k * c1 v) + k * c2 v * (k * c2 v))
    with (k * k * (c0 v * c0 v + c1 v * c1 v + c2 v * c2 v)) by ring.
  rewrite sqrt_mult; [| nra | nra].
  rewrite sqrt_square by assumption; reflexivity.
Qed.

Lemma cell_dilated (k : R) (z : C) (x x' n : R) :
  0 < k ->
  x' = k * k * x ->
  cmul_cell z (fdiv x' ((k * n) ^ 3)) = cscale (/ k) (cmul_cell z (fdiv x (n ^ 3))).
Proof.
  intros Hk ->; unfold fdiv.
  destruct (Req_dec_T (n ^ 3) 0) as [H0 | Hn0].
  - apply pow3_zero_inv in H0; subst n.
    destruct (Req_dec_T ((k * 0) ^ 3) 0) as [| Hne]; [reflexivity |].
    exfalso; apply Hne; ring.
  - assert (Hn : n <> 0) by (intros ->; apply Hn0; ring).
    destruct (Req_dec_T ((k * n) ^ 3) 0) as [H0 | _].
    + apply pow3_zero_inv in H0; nra.
    + destruct z as [zr zi]; unfold cmul_cell, cscale, Cmul, RtoC; simpl.
      f_equal; apply injective_projections; simpl; field; split; lra.
Qed.

Lemma db_scale_dilated (k : R) (seg_start seg_end point : vec3) (I : C) :
  0 < k ->
  db_scale (vscale k seg_start, vscale k seg_end) (vscale k point) I
  = omap (scale_row (/ k)) (db_scale (seg_start, seg_end) point I).
Proof.
  intros Hk; unfold db_scale, scale_row; cbn [fst snd omap data dtype_of].
  replace (vsub (vscale k point)
                (vdivs (vadd (vscale k seg_end) (vscale k seg_start)) 2))
    with (vscale k (vsub point (vdivs (vadd seg_end seg_start) 2)))
    by (apply triple_ext; simpl; lra).
  rewrite norm_vscale by lra.
  do 2 f_equal; apply triple_ext; cbn [tmap c0 c1 c2 cross];
    apply cell_dilated; try assumption;
    unfold vsub, vscale, vdivs, vadd, tmap, tmap2; simpl; field.
Qed.

Lemma cell_added (k I1 I2 : C) (x : option R) :
  cmul_cell (Cmul k (Cadd I1 I2)) x
  = cadd (cmul_cell (Cmul k I1) x) (cmul_cell (Cmul k I2) x).
Proof.
  destruct x as [x |]; [| reflexivity].
  destruct k as [kr ki], I1 as [ar ai], I2 as [br bi].
  unfold cmul_cell, cadd, Cmul, Cadd, RtoC; simpl.
  f_equal; apply injective_projections; simpl; ring.
Qed.

Lemma db_scale_sum (seg : vec3 * vec3) (point : vec3) (I1 I2 : C) :
  db_scale seg point (Cadd I1 I2)
  = (dB1 <-- db_scale seg point I1 ;;
     dB2 <-- db_scale seg point I2 ;;
     iadd_row dB1 dB2).
Proof.
  unfold db_scale, iadd_row; cbn [obind data dtype_of can_cast_same_kind].
  do 2 f_equal; apply triple_ext; cbn [tmap tmap2 c0 c1 c2]; apply cell_added.
Qed.

Lemma cross_self_free (a r : vec3) :
  c0 a * c0 (cross a r) + c1 a * c1 (cross a r) + c2 a * c2 (cross a r) = 0 /\
  c0 r * c0 (cross a r) + c1 r * c1 (cross a r) + c2 r * c2 (cross a r) = 0.
Proof. unfold cross; simpl; split; ring. Qed.

Lemma biot_savart_law_orthogonal (seg_start seg_end point : vec3) (I : C) :
  cdot (vsub seg_end seg_start) (biot_savart_law seg_start seg_end point I) = (0, 0) /\
  cdot (vsub point (midpoint seg_start seg_end))
       (biot_savart_law seg_start seg_end point I) = (0, 0).
Proof.
  unfold biot_savart_law, cdot; cbn [tmap c0 c1 c2 fst snd].
  set (a := vsub seg_end seg_start).
  set (r := vsub point (midpoint seg_start seg_end)).
  destruct (cross_self_free a r) as [Ha Hr].
  set (n := norm r ^ 3) in *.
  split; apply injective_projections; cbn [fst snd].
  - transitivity (1e-7 / n * fst I *
      (c0 a * c0 (cross a r) + c1 a * c1 (cross a r) + c2 a * c2 (cross a r)));
      [unfold Rdiv; ring | rewrite Ha; ring].
  - transitivity (1e-7 / n * snd I *
      (c0 a * c0 (cross a r) + c1 a * c1 (cross a r) + c2 a * c2 (cross a r)));
      [unfold Rdiv; ring | rewrite Ha; ring].
  - transitivity (1e-7 / n * fst I *
      (c0 r * c0 (cross a r) + c1 r * c1 (cross a r) + c2 r * c2 (cross a r)));
      [unfold Rdiv; ring | rewrite Hr; ring].
  - transitivity (1e-7 / n * snd I *
      (c0 r * c0 (cross a r) + c1 r * c1 (cross a r) + c2 r * c2 (cross a r)));
      [unfold Rdiv; ring | rewrite Hr; ring].
Qed.

Lemma midpoint_same (p : vec3) : midpoint p p = p.
Proof. apply triple_ext; simpl; lra. Qed.

Lemma db_scale_null_segment (p point : vec3) (I : C) :
  point <> p ->
  db_scale (p, p) point I = Return (Arr complex128 (T3 czero czero czero)).
Proof.
  intros Hne; rewrite db_scale_off_midpoint by (rewrite midpoint_same; exact Hne).
  unfold biot_savart_law, czero, RtoC; do 2 f_equal.
  apply triple_ext; cbn [tmap c0 c1 c2 cross]; f_equal;
    apply injective_projections; cbn [fst snd];
    unfold vsub, tmap2; simpl; unfold Rdiv; ring.
Qed.

Lemma db_scale_axis (seg_start seg_end : vec3) (t : R) (I : C) :
  vadd (midpoint seg_start seg_end) (vscale t (vsub seg_end seg_start))
  <> midpoint seg_start seg_end ->
  db_scale (seg_start, seg_end)
           (vadd (midpoint seg_start seg_end) (vscale t (vsub seg_end seg_start))) I
  = Return (Arr complex128 (T3 czero czero czero)).
Proof.
  intros Hne; rewrite db_scale_off_midpoint by exact Hne.
  unfold biot_savart_law, czero, RtoC; do 2 f_equal.
  apply triple_ext; cbn [tmap c0 c1 c2 cross]; f_equal;
    apply injective_projections; cbn [fst snd];
    unfold vsub, vadd, vscale, midpoint, vdivs, tmap, tmap2; simpl;
    unfold Rdiv; ring.
Qed.

(** ** The discretizer, case by case *)

Lemma arange_length (a b : Z) : length (arange a b) = Z.to_nat (b - a).
Proof. unfold arange; rewrite length_map, length_seq; reflexivity. Qed.

Lemma mul_broadcast_misfit (v : vec3) (ks : list Z) :
  length ks <> 1%nat -> length ks <> 3%nat ->
  mul_broadcast v ks = Raise "ValueError"%string.
Proof.
  destruct ks as [| a [| b [| c [| d ks]]]]; simpl; intros H1 H3;
    try reflexivity; contradiction.
Qed.

Lemma floor_nonpositive (L dL : R) : 0 <= L -> dL < 0 -> (floor (L / dL) <= 0)%Z.
Proof.
  intros HL HdL; unfold floor.
  destruct (Zfloor_bound (L / dL)) as [Hlow _].
  assert (Hq : L / dL <= 0).
  { unfold Rdiv; pose proof (Rinv_lt_0_compat dL HdL); nra. }
  apply le_IZR; lra.
Qed.

Lemma quotient_exact (L dL x : R) : dL <> 0 -> (L / dL = x <-> L = x * dL).
Proof.
  intros HdL; split; intros H.
  - rewrite <- H; field; assumption.
  - rewrite H; field; assumption.
Qed.

(** An edge that holds neither one nor three whole steps is refused. *)
Lemma discretize_misfit (dL : R) (n : nat) (w : World) (p1 p2 : vec3) :
  nth_error (coordz (wire w)) n = Some p1 ->
  nth_error (coordz (wire w)) (n + 1) = Some p2 ->
  ~ norm (vsub p2 p1) < dL ->
  dL <> 0 ->
  floor (norm (vsub p2 p1) / dL) <> 1%Z ->
  floor (norm (vsub p2 p1) / dL) <> 3%Z ->
  discretize dL n w = (Raise "ValueError"%string, w).
Proof.
  intros H1 H2 Hlong HdL Hk1 Hk3.
  rewrite (discretize_edge dL n w p1 p2 H1 H2).
  destruct (Rlt_dec _ dL); [contradiction |].
  unfold int_floor_div; destruct (Req_dec_T dL 0); [contradiction |].
  cbn [obind]; rewrite mul_broadcast_misfit; [reflexivity | |];
    rewrite arange_length; lia.
Qed.

(** An edge that holds one or three whole steps: three points that differ
    from [p1] by one amount on all three axes, and [p2] after them when the
    steps do not fill the edge. *)
Lemma discretize_fit (dL : R) (n : nat) (w : World) (p1 p2 : vec3) :
  nth_error (coordz (wire w)) n = Some p1 ->
  nth_error (coordz (wire w)) (n + 1) = Some p2 ->
  ~ norm (vsub p2 p1) < dL ->
  dL <> 0 ->
  floor (norm (vsub p2 p1) / dL) = 1%Z \/ floor (norm (vsub p2 p1) / dL) = 3%Z ->
  exists t0 t1 t2,
    discretize dL n w
    = (Return ([shift p1 t0; shift p1 t1; shift p1 t2]
               ++ if Req_dec_T (IZR (floor (norm (vsub p2 p1) / dL)))
                               (norm (vsub p2 p1) / dL)
                  then [] else [p2]),
       w).
Proof.
  intros H1 H2 Hlong HdL Hk.
  rewrite (discretize_edge dL n w p1 p2 H1 H2).
  destruct (Rlt_dec _ dL); [contradiction |].
  unfold int_floor_div; destruct (Req_dec_T dL 0); [contradiction |].
  cbn [obind].
  set (v := vdivs _ _).
  destruct Hk as [-> | ->]; cbn [arange mul_broadcast map seq Z.to_nat obind];
    simpl mul_broadcast.
  - exists (c0 v * 1), (c1 v * 1), (c2 v * 1).
    destruct (Req_dec_T _ _); reflexivity.
  - exists (c0 v * 1), (c1 v * 2), (c2 v * 3).
    destruct (Req_dec_T _ _); reflexivity.
Qed.

(** ** The solver, case by case *)

Lemma zeros_dims_counts (n : Z) (P : nat) :
  zeros_dims [n; Z.of_nat P; 3%Z]
  = if (0 <=? n)%Z then Return tt else Raise "ValueError"%string.
Proof.
  unfold zeros_dims; cbn [forallb].
  destruct (0 <=? n)%Z; [| reflexivity].
  destruct (Z.leb_spec 0 (Z.of_nat P)); [reflexivity | lia].
Qed.

Lemma solve_no_vertex (dL : R) (w : World) :
  coordz (wire w) = [] -> solve dL w = (Raise "ValueError"%string, w).
Proof.
  intros Hcz; unfold solve, bind, gets, lift; simpl.
  rewrite Hcz, zeros_dims_counts; reflexivity.
Qed.

Lemma solve_one_vertex (dL : R) (w : World) (p : vec3) :
  coordz (wire w) = [p] -> solve dL w = (Return (zeros_rows (length (points w))), w).
Proof.
  intros Hcz; unfold solve, bind, gets, lift; simpl.
  rewrite Hcz, zeros_dims_counts; reflexivity.
Qed.

(** With an edge, the first pass of the loop decides the outcome. *)
Lemma solve_first_edge (dL : R) (w : World) (p1 p2 : vec3) :
  nth_error (coordz (wire w)) 0 = Some p1 ->
  nth_error (coordz (wire w)) 1 = Some p2 ->
  result (solve dL) w
  = (d <-- result (discretize dL 0) w ;;
     slot <-- setitem_slot (length (points w)) d ;;
     Raise "TypeError"%string).
Proof.
  intros H1 H2.
  assert (HN : (2 <= length (coordz (wire w)))%nat).
  { assert (1 < length (coordz (wire w)))%nat by (apply nth_error_Some; congruence).
    lia. }
  unfold result at 1, solve, bind, gets; simpl.
  unfold lift at 1; rewrite zeros_dims_counts.
  destruct (Z.leb_spec 0 (Z.of_nat (length (coordz (wire w))) - 1)); [| lia].
  rewrite range_succ by lia; simpl mfold; unfold bind at 1.
  pose proof (discretize_columns dL 0 w p1 p2) as Hcols.
  pose proof (discretize_world dL 0 w) as Hw.
  unfold result in *.
  destruct (discretize dL 0 w) as [[d | e] w1]; simpl in Hw, Hcols |- *; subst w1;
    [| reflexivity].
  specialize (Hcols d H1 H2 eq_refl).
  unfold bind, lift; simpl.
  destruct (setitem_slot _ d) as [slot |] eqn:Hslot; simpl; [| reflexivity].
  apply setitem_slot_inv in Hslot as (HP & -> & Hd); [| lia].
  rewrite HP; simpl.
  destruct (points w) as [| q0 qs] eqn:Hpts; simpl in HP; [discriminate |].
  unfold bind, lift, gets; simpl.
  rewrite Hpts; unfold getitem at 1; simpl nth_error; cbv iota.
  rewrite solve_segment_raises by lia; reflexivity.
Qed.

Lemma setitem_slot_pair (P : nat) (a b : vec3) :
  setitem_slot P [a; b] = Raise "ValueError"%string.
Proof. unfold setitem_slot; destruct (P =? 3)%nat; reflexivity. Qed.

Lemma setitem_slot_four (P : nat) (a b c d : vec3) :
  setitem_slot P [a; b; c; d] = Raise "ValueError"%string.
Proof. unfold setitem_slot; destruct (P =? 3)%nat; reflexivity. Qed.

Lemma setitem_slot_three (P : nat) (a b c : vec3) :
  setitem_slot P [a; b; c]
  = if (P =? 3)%nat then Return [a; b; c] else Raise "ValueError"%string.
Proof. unfold setitem_slot; destruct (P =? 3)%nat; reflexivity. Qed.

Lemma error_is_value (A B : Prop) :
  ~ A -> ~ B ->
  ("ValueError" = "ValueError" \/ "ValueError" = "OverflowError"
   \/ "ValueError" = "TypeError")%string /\
  ("ValueError"%string = "OverflowError"%string <-> A) /\
  ("ValueError"%string = "TypeError"%string <-> B).
Proof. intros HA HB; repeat split; auto; try discriminate; tauto. Qed.

Lemma error_is_overflow (A B : Prop) :
  A -> ~ B ->
  ("OverflowError" = "ValueError" \/ "OverflowError" = "OverflowError"
   \/ "OverflowError" = "TypeError")%string /\
  ("OverflowError"%string = "OverflowError"%string <-> A) /\
  ("OverflowError"%string = "TypeError"%string <-> B).
Proof. intros HA HB; repeat split; auto; try discriminate; tauto. Qed.

Lemma error_is_type (A B : Prop) :
  ~ A -> B ->
  ("TypeError" = "ValueError" \/ "TypeError" = "OverflowError"
   \/ "TypeError" = "TypeError")%string /\
  ("TypeError"%string = "OverflowError"%string <-> A) /\
  ("TypeError"%string = "TypeError"%string <-> B).
Proof. intros HA HB; repeat split; auto; try discriminate; tauto. Qed.

Lemma solve_first_edge_error (dL : R) (w : World) (p1 p2 : vec3) :
  nth_error (coordz (wire w)) 0 = Some p1 ->
  nth_error (coordz (wire w)) 1 = Some p2 ->
  exists e,
    result (solve dL) w = Raise e /\
    (e = "ValueError" \/ e = "OverflowError" \/ e = "TypeError")%string /\
    (e = "OverflowError"%string <-> dL = 0 /\ norm (vsub p2 p1) <> 0) /\
    (e = "TypeError"%string <->
     length (points w) = 3%nat /\ 0 < dL /\
     (norm (vsub p2 p1) = dL \/ norm (vsub p2 p1) = 3 * dL)).
Proof.
  intros H1 H2; rewrite (solve_first_edge dL w p1 p2 H1 H2).
  pose proof (norm_nonneg (vsub p2 p1)) as HL.
  set (L := norm (vsub p2 p1)) in *.
  destruct (Rlt_dec L dL) as [Hshort | Hlong].
  { unfold result; rewrite (discretize_short dL 0 w p1 p2 H1 H2 Hshort).
    cbn [fst obind]; rewrite setitem_slot_pair; cbn [obind].
    eexists; split; [reflexivity |].
    apply error_is_value; [intros (-> & _); lra | intros (_ & ? & [? | ?]); lra]. }
  destruct (Req_dec_T dL 0) as [-> | HdL].
  { unfold result; rewrite (discretize_zero_step 0 w p1 p2 H1 H2).
    fold L; cbn [fst obind].
    destruct (Req_dec_T L 0) as [HL0 | HL0]; eexists; (split; [reflexivity |]).
    - apply error_is_value; [tauto | intros (_ & ? & _); lra].
    - apply error_is_overflow; [tauto | intros (_ & ? & _); lra]. }
  assert (Hfloor : forall k : Z, L = IZR k * dL -> floor (L / dL) = k).
  { intros k Hk; unfold floor.
    replace (L / dL) with (IZR k) by (rewrite Hk; field; assumption).
    apply ZfloorZ. }
  assert (Hnot0 : ~ (dL = 0 /\ L <> 0)) by tauto.
  destruct (Z.eq_dec (floor (L / dL)) 1) as [Hk | Hk1];
    [| destruct (Z.eq_dec (floor (L / dL)) 3) as [Hk | Hk3]].
  3: { unfold result;
       rewrite (discretize_misfit dL 0 w p1 p2 H1 H2 Hlong HdL Hk1 Hk3).
       cbn [fst obind]; eexists; split; [reflexivity |].
       apply error_is_value; [exact Hnot0 |].
       intros (_ & Hpos & [HLd | HLd]).
       - apply Hk1, Hfloor; lra.
       - apply Hk3, Hfloor; lra. }
  all: destruct (discretize_fit dL 0 w p1 p2 H1 H2 Hlong HdL) as (t0 & t1 & t2 & Hd);
    [auto |].
  all: unfold result; rewrite Hd; cbn [fst obind]; fold L.
  all: destruct (Req_dec_T (IZR (floor (L / dL))) (L / dL)) as [Hex | Hnex];
    cbn [app].
  2, 4: rewrite setitem_slot_four; cbn [obind]; eexists; (split; [reflexivity |]);
    apply error_is_value; [exact Hnot0 |];
    intros (_ & Hpos & [HLd | HLd]); apply Hnex;
    [ rewrite (Hfloor 1%Z) by lra; symmetry; apply quotient_exact; lra
    | rewrite (Hfloor 3%Z) by lra; symmetry; apply quotient_exact; lra ].
  all: rewrite setitem_slot_three.
  all: assert (Hprod : L = IZR (floor (L / dL)) * dL)
         by (apply quotient_exact; [assumption | symmetry; exact Hex]).
  all: rewrite Hk in Hprod.
  all: assert (Hpos : 0 < dL) by nra.
  all: destruct (Nat.eqb_spec (length (points w)) 3) as [HP | HP]; cbn [obind];
    eexists; (split; [reflexivity |]).
  all: try (apply error_is_value; [exact Hnot0 | tauto]).
  all: apply error_is_type; [exact Hnot0 |]; repeat split; try assumption.
  - left; lra.
  - right; lra.
Qed.

(** ** The constructor and the sample line *)

Lemma zeros_1d_count (n : Z) :
  (n <? 0)%Z = false -> Geom.zeros_1d n = Return (repeat 0 (Z.to_nat n)).
Proof.
  intros Hn; unfold Geom.zeros_1d, zeros_dims; cbn [forallb].
  destruct (Z.leb_spec 0 n); [reflexivity |].
  apply Z.ltb_ge in Hn; lia.
Qed.

Lemma init_coil_raises (center : vec3) (radius : R) (num_points : Z)
    (orientation : string) :
  Geom.init_coil center radius num_points orientation
  = Raise (if (num_points <? 0)%Z then "ValueError"
           else if (String.eqb orientation "xy" || String.eqb orientation "xz"
                    || String.eqb orientation "yz")%bool
                then "TypeError"
                else "UnboundLocalError")%string.
Proof.
  unfold Geom.init_coil, Coil.linspace.
  destruct (num_points <? 0)%Z eqn:Hn; [reflexivity |].
  cbn [obind]; rewrite (zeros_1d_count _ Hn).
  destruct (String.eqb orientation "xy"); [reflexivity |].
  destruct (String.eqb orientation "xz"); [reflexivity |].
  destruct (String.eqb orientation "yz"); reflexivity.
Qed.

Lemma columns_length (x y z : list R) :
  length y = length x -> length z = length x ->
  length (Coil.columns x y z) = length x.
Proof.
  revert y z; induction x as [| a x IH]; intros [| b y] [| c z]; simpl;
    try discriminate; try reflexivity.
  intros [= Hy] [= Hz]; f_equal; apply IH; assumption.
Qed.

Lemma columns_nth (x y z : list R) (i : nat) (d : vec3) :
  length y = length x -> length z = length x -> (i < length x)%nat ->
  nth i (Coil.columns x y z) d = T3 (nth i x 0) (nth i y 0) (nth i z 0).
Proof.
  revert y z i; induction x as [| a x IH]; intros [| b y] [| c z] i; simpl;
    try discriminate; try lia.
  intros [= Hy] [= Hz] Hi; destruct i as [| i]; [reflexivity |].
  apply IH; [assumption | assumption | lia].
Qed.

Lemma map_nth_in (A : Type) (f : A -> R) (l : list A) (i : nat) (d : A) :
  (i < length l)%nat -> nth i (map f l) 0 = f (nth i l d).
Proof.
  intros Hi.
  rewrite (nth_indep (map f l) 0 (f d)) by (rewrite length_map; exact Hi).
  apply map_nth.
Qed.

Lemma linspace_nth (start stop : R) (n i : nat) (num : Z) :
  (i < n)%nat ->
  nth i (map (fun i => start + INR i * ((stop - start) / (IZR num - 1))) (seq 0 n)) 0
  = start + INR i * ((stop - start) / (IZR num - 1)).
Proof.
  intros Hi.
  rewrite (map_nth_in _ _ _ _ 0%nat) by (rewrite length_seq; exact Hi).
  rewrite seq_nth by exact Hi; reflexivity.
Qed.

Lemma ones_nth (f : R -> R) (n i : nat) :
  (i < n)%nat -> nth i (map f (repeat 1 n)) 0 = f 1.
Proof.
  intros Hi.
  rewrite (map_nth_in _ _ _ _ 1) by (rewrite repeat_length; exact Hi).
  rewrite nth_repeat; reflexivity.
Qed.

Lemma radial_line_points (m : Coil) :
  (0 <= num_points m)%Z ->
  exists ts pts,
    Geom.radial_line m = Return (ts, pts) /\
    length ts = Z.to_nat (num_points m) /\
    length pts = Z.to_nat (num_points m) /\
    (forall i, (i < Z.to_nat (num_points m))%nat ->
       nth i ts 0 = INR i * (radius m / (IZR (num_points m) - 1)) /\
       nth i pts Sample.origin
       = T3 (c0 (center m)) (c1 (center m)) (c2 (center m) + nth i ts 0)) /\
    ((2 <= num_points m)%Z ->
       nth (Z.to_nat (num_points m) - 1) pts Sample.origin
       = T3 (c0 (center m)) (c1 (center m)) (c2 (center m) + radius m)).
Proof.
  intros Hnum; unfold Geom.radial_line, Coil.linspace.
  destruct (Z.ltb_spec (num_points m) 0); [lia |].
  cbn [obind].
  set (n := Z.to_nat (num_points m)).
  set (ts := map _ (seq 0 n)).
  assert (Hts : length ts = n) by (unfold ts; rewrite length_map, length_seq; reflexivity).
  rewrite Hts.
  set (pts := Coil.columns _ _ _).
  assert (Hlen : length (combine (repeat 1 n) ts) = n).
  { rewrite length_combine, repeat_length, Hts; lia. }
  assert (Hnth : forall i, (i < n)%nat ->
            nth i ts 0 = INR i * (radius m / (IZR (num_points m) - 1)) /\
            nth i pts Sample.origin
            = T3 (c0 (center m)) (c1 (center m)) (c2 (center m) + nth i ts 0)).
  { intros i Hi; split.
    - unfold ts; rewrite linspace_nth by exact Hi; unfold Rdiv; ring.
    - unfold pts; rewrite columns_nth;
        [| rewrite !length_map, repeat_length; reflexivity
         | rewrite !length_map, Hlen, repeat_length; reflexivity
         | rewrite length_map, repeat_length; exact Hi ].
      rewrite !ones_nth by exact Hi.
      rewrite (map_nth_in _ _ _ _ (1, 0)) by (rewrite Hlen; exact Hi).
      rewrite combine_nth by (rewrite repeat_length, Hts; reflexivity).
      rewrite nth_repeat; cbn [fst snd].
      apply triple_ext; cbn [c0 c1 c2]; ring. }
  exists ts, pts; repeat split; try reflexivity.
  - exact Hts.
  - unfold pts; rewrite columns_length;
      [rewrite length_map, repeat_length; reflexivity
      | rewrite !length_map, repeat_length; reflexivity
      | rewrite !length_map, Hlen, repeat_length; reflexivity].
  - apply Hnth; assumption.
  - apply Hnth; assumption.
  - intros H2.
    assert (Hi : (n - 1 < n)%nat) by (unfold n; lia).
    destruct (Hnth _ Hi) as [Ht ->]; rewrite Ht.
    assert (HINR : INR (n - 1) = IZR (num_points m) - 1).
    { rewrite INR_IZR_INZ; unfold n.
      rewrite Nat2Z.inj_sub, Z2Nat.id by lia.
      rewrite minus_IZR; reflexivity. }
    rewrite HINR.
    assert (Hne : IZR (num_points m) - 1 <> 0).
    { apply IZR_le in H2; lra. }
    apply triple_ext; cbn [c0 c1 c2]; try reflexivity.
    field; exact Hne.
Qed.

Lemma calc_inductance_line
    (simps : list Coil.float -> list R -> Outcome Coil.float)
    (inf_norm : triple cval -> bool) (self mutual_coil : Coil) :
  Coil.calc_inductance simps inf_norm self mutual_coil
  = (line <-- Geom.radial_line mutual_coil ;;
     Solve <-- getattr "Solve" ;;
     let call := Solve 0.1 (mkWorld self (snd line)) in
     b <-- fst call ;;
     let self := wire (snd call) in
     Coil.integrate_profile simps (oid self =? oid mutual_coil)%nat (coil_I self)
                            (fst line) (map (Coil.row_norm inf_norm) (data b))).
Proof.
  unfold Coil.calc_inductance, Geom.radial_line.
  destruct (Coil.linspace _ _ _); reflexivity.
Qed.

(** ** The truncation on profiles that hold NaN or an infinity *)

Lemma float_eq_true (a b : Coil.float) : Coil.float_eq a b = true -> a = b.
Proof.
  destruct a as [x | | |], b as [y | | |]; simpl; try discriminate; try reflexivity.
  destruct (Req_dec_T x y); [intros _; subst; reflexivity | discriminate].
Qed.

Lemma float_eq_same (a : Coil.float) : a <> Coil.NaN -> Coil.float_eq a a = true.
Proof.
  destruct a as [x | | |]; simpl; intros H; try reflexivity.
  - destruct (Req_dec_T x x); [reflexivity | contradiction].
  - contradiction.
Qed.

Lemma float_gt_number (a b : Coil.float) :
  Coil.float_gt a b = true -> a <> Coil.NaN /\ b <> Coil.NaN.
Proof.
  destruct a, b; simpl; intros H; split; discriminate.
Qed.

(** Below a number that exceeds it, a float does not exceed what that
    number does not exceed. *)
Lemma float_gt_below (m item peak : Coil.float) :
  Coil.float_gt item m = true -> Coil.float_gt item peak = false ->
  peak <> Coil.NaN -> Coil.float_gt m peak = false.
Proof.
  destruct m as [a | | |], item as [b | | |], peak as [c | | |]; simpl;
    try discriminate; try reflexivity; try contradiction;
    repeat match goal with
           | |- context [Rlt_dec ?x ?y] => destruct (Rlt_dec x y)
           end;
    try discriminate; try reflexivity; try lra.
Qed.

(** A float that does not exceed a number does not exceed what that number
    does not exceed. *)
Lemma float_gt_under (item m peak : Coil.float) :
  Coil.float_gt item m = false -> Coil.float_gt m peak = false ->
  m <> Coil.NaN -> peak <> Coil.NaN -> Coil.float_gt item peak = false.
Proof.
  destruct m as [a | | |], item as [b | | |], peak as [c | | |]; simpl;
    try discriminate; try reflexivity; try contradiction;
    repeat match goal with
           | |- context [Rlt_dec ?x ?y] => destruct (Rlt_dec x y)
           end;
    try discriminate; try reflexivity; try lra.
Qed.

Lemma py_max_from_nan (rest : list Coil.float) :
  fold_left (fun m item => if Coil.float_gt item m then item else m) rest Coil.NaN
  = Coil.NaN.
Proof.
  induction rest as [| y rest IH]; simpl; [reflexivity |].
  destruct y; simpl; exact IH.
Qed.

Lemma py_max_from_inf (rest : list Coil.float) :
  fold_left (fun m item => if Coil.float_gt item m then item else m) rest Coil.PInf
  = Coil.PInf.
Proof.
  induction rest as [| y rest IH]; simpl; [reflexivity |].
  destruct y; simpl; exact IH.
Qed.

Lemma where_first_nan (bs : list Coil.float) :
  Coil.where_first (map (fun b => Coil.float_eq b Coil.NaN) bs)
  = Raise "IndexError"%string.
Proof.
  induction bs as [| y bs IH]; simpl; [reflexivity |].
  destruct y; simpl; rewrite IH; reflexivity.
Qed.

Lemma truncate_nan_first (rest : list Coil.float) (pts : list R) :
  Coil.truncate_at_peak (Coil.NaN :: rest) pts = Raise "IndexError"%string.
Proof.
  unfold Coil.truncate_at_peak, Coil.py_max.
  rewrite py_max_from_nan; cbn [obind].
  rewrite where_first_nan; reflexivity.
Qed.

Lemma truncate_inf_first (rest : list Coil.float) (pts : list R) :
  Coil.truncate_at_peak (Coil.PInf :: rest) pts
  = Return ([Coil.PInf], firstn 1 pts).
Proof.
  unfold Coil.truncate_at_peak, Coil.py_max.
  rewrite py_max_from_inf; reflexivity.
Qed.

(** The builtin [max] of a sequence that starts with a number: a number of
    the sequence that no item exceeds. *)
Lemma py_max_no_greater (rest : list Coil.float) :
  forall x,
  x <> Coil.NaN ->
  exists peak,
    fold_left (fun m item => if Coil.float_gt item m then item else m) rest x = peak /\
    peak <> Coil.NaN /\
    Coil.float_gt x peak = false /\
    (forall y, In y rest -> Coil.float_gt y peak = false) /\
    (peak = x \/ In peak rest).
Proof.
  induction rest as [| y rest IH]; intros x Hx.
  - exists x; simpl; repeat split; [exact Hx | | contradiction | auto].
    destruct x as [a | | |]; simpl; try reflexivity.
    destruct (Rlt_dec a a); [lra | reflexivity].
  - simpl; destruct (Coil.float_gt y x) eqn:Hgt.
    + destruct (float_gt_number _ _ Hgt) as [Hy _].
      destruct (IH y Hy) as (peak & Hf & Hp & Hyp & Hall & Hin).
      exists peak; repeat split; [exact Hf | exact Hp | | |].
      * exact (float_gt_below x y peak Hgt Hyp Hp).
      * intros z [<- | Hz]; [exact Hyp | apply Hall, Hz].
      * destruct Hin as [-> | Hin]; auto.
    + destruct (IH x Hx) as (peak & Hf & Hp & Hxp & Hall & Hin).
      exists peak; repeat split; [exact Hf | exact Hp | exact Hxp | |].
      * intros z [<- | Hz]; [| apply Hall, Hz].
        exact (float_gt_under y x peak Hgt Hxp Hx Hp).
      * destruct Hin as [-> | Hin]; auto.
Qed.

Lemma where_first_number (peak : Coil.float) (bs : list Coil.float) :
  peak <> Coil.NaN ->
  In peak bs ->
  exists m,
    Coil.where_first (map (fun b => Coil.float_eq b peak) bs) = Return m /\
    (m < length bs)%nat /\
    nth_error bs m = Some peak /\
    forall j, (j < m)%nat -> nth_error bs j <> Some peak.
Proof.
  intros Hp; induction bs as [| b bs IH]; simpl; [contradiction |].
  intros Hin.
  destruct (Coil.float_eq b peak) eqn:Heq.
  - exists 0%nat; repeat split; [lia | | intros j Hj; lia].
    apply float_eq_true in Heq; subst; reflexivity.
  - assert (Hb : b <> peak).
    { intros ->; rewrite (float_eq_same peak Hp) in Heq; discriminate. }
    destruct Hin as [Hin | Hin]; [contradiction |].
    destruct (IH Hin) as (m & Hm & Hlt & Hnth & Hfirst).
    exists (S m); rewrite Hm; repeat split; [lia | exact Hnth |].
    intros [| j] Hj; simpl; [congruence | apply Hfirst; lia].
Qed.

Lemma truncate_number_first (b0 : Coil.float) (rest : list Coil.float)
    (pts : list R) :
  b0 <> Coil.NaN ->
  exists m peak,
    (m < length (b0 :: rest))%nat /\
    nth_error (b0 :: rest) m = Some peak /\
    peak <> Coil.NaN /\
    (forall j x, nth_error (b0 :: rest) j = Some x -> Coil.float_gt x peak = false) /\
    (forall j, (j < m)%nat -> nth_error (b0 :: rest) j <> Some peak) /\
    Coil.truncate_at_peak (b0 :: rest) pts
    = Return (firstn (S m) (b0 :: rest), firstn (S m) pts).
Proof.
  intros Hb0.
  destruct (py_max_no_greater rest b0 Hb0) as (peak & Hf & Hp & Hb & Hall & Hin).
  assert (Hmem : In peak (b0 :: rest)).
  { destruct Hin as [-> | Hin]; [left; reflexivity | right; exact Hin]. }
  destruct (where_first_number peak _ Hp Hmem) as (m & Hm & Hlt & Hnth & Hfirst).
  exists m, peak; repeat split; try assumption.
  - intros j x Hj; apply nth_error_In in Hj.
    destruct Hj as [<- | Hj]; [exact Hb | apply Hall, Hj].
  - unfold Coil.truncate_at_peak, Coil.py_max.
    rewrite Hf; cbn [obind]; rewrite Hm; cbn [obind].
    rewrite Nat.add_1_r, length_firstn.
    replace (Nat.min (S m) (length (b0 :: rest))) with (S m) by lia.
    reflexivity.
Qed.

(** The profile 1, infinity, 2: the cut falls after the infinite sample. *)
Lemma truncate_at_infinity :
  Coil.truncate_at_peak [Coil.Fin 1; Coil.PInf; Coil.Fin 2] [0; 1; 2]
  = Return ([Coil.Fin 1; Coil.PInf], [0; 1]).
Proof.
  unfold Coil.truncate_at_peak, Coil.py_max; simpl.
  destruct (Req_dec_T 1 1); reflexivity.
Qed.

(** * Further properties, by source function *)

(** ** [BiotSolver.__db_scale] *)

(** X1.  Swapping the two ends of a sub-segment negates its field at every
    point: each cell is multiplied by -1, and a cell that is not a number
    stays so. *)
Theorem db_scale_reversed (seg_start seg_end point : vec3) (I : C) :
  db_scale (seg_end, seg_start) point I
  = omap (scale_row (-1)) (db_scale (seg_start, seg_end) point I).
Proof. apply db_scale_swap. Qed.

(** X2.  Moving the sub-segment and the observation point by one vector
    leaves the field unchanged. *)
Theorem db_scale_translated (t seg_start seg_end point : vec3) (I : C) :
  db_scale (vadd seg_start t, vadd seg_end t) (vadd point t) I
  = db_scale (seg_start, seg_end) point I.
Proof. apply db_scale_moved. Qed.

(** X3.  Scaling all coordinates by a factor [k > 0] divides the field by
    [k]. *)
Theorem db_scale_rescaled (k : R) (seg_start seg_end point : vec3) (I : C) :
  0 < k ->
  db_scale (vscale k seg_start, vscale k seg_end) (vscale k point) I
  = omap (scale_row (/ k)) (db_scale (seg_start, seg_end) point I).
Proof. apply db_scale_dilated. Qed.

(** The sub-segment from (0,0,0) to (2,0,0) seen from (1,1,0), doubled. *)
Lemma db_scale_rescaled_witness :
  0 < 2 /\
  db_scale (vscale 2 origin, vscale 2 (T3 2 0 0)) (vscale 2 (T3 1 1 0)) (RtoC 1)
  = omap (scale_row (/ 2)) (db_scale (origin, T3 2 0 0) (T3 1 1 0) (RtoC 1)).
Proof.
  split; [lra |].
  apply (db_scale_rescaled 2 origin (T3 2 0 0) (T3 1 1 0) (RtoC 1)); lra.
Defined.

(** X4.  The field of the sum of two currents is the sum of their fields:
    what [__db_scale] returns for [I1 + I2] is what the in-place addition
    of the array for [I2] to the array for [I1] leaves. *)
Theorem db_scale_superposition (seg : vec3 * vec3) (point : vec3) (I1 I2 : C) :
  db_scale seg point (Cadd I1 I2)
  = (dB1 <-- db_scale seg point I1 ;;
     dB2 <-- db_scale seg point I2 ;;
     iadd_row dB1 dB2).
Proof. apply db_scale_sum. Qed.

(** X5.  Away from the middle of the sub-segment the returned field is
    finite and orthogonal both to the sub-segment [vdL] and to the
    displacement [r], in its real and in its imaginary part. *)
Theorem db_scale_orthogonal (seg_start seg_end point : vec3) (I : C) :
  point <> midpoint seg_start seg_end ->
  exists F : triple C,
    db_scale (seg_start, seg_end) point I = Return (Arr complex128 (tmap Some F)) /\
    cdot (vsub seg_end seg_start) F = (0, 0) /\
    cdot (vsub point (midpoint seg_start seg_end)) F = (0, 0).
Proof.
  intros Hne; exists (biot_savart_law seg_start seg_end point I).
  split; [apply db_scale_off_midpoint, Hne | apply biot_savart_law_orthogonal].
Qed.

Lemma db_scale_orthogonal_witness :
  T3 1 1 0 <> midpoint origin (T3 2 0 0) /\
  exists F : triple C,
    db_scale (origin, T3 2 0 0) (T3 1 1 0) (RtoC 1)
    = Return (Arr complex128 (tmap Some F)) /\
    cdot (vsub (T3 2 0 0) origin) F = (0, 0) /\
    cdot (vsub (T3 1 1 0) (midpoint origin (T3 2 0 0))) F = (0, 0).
Proof.
  assert (Hoff : T3 1 1 0 <> midpoint origin (T3 2 0 0)).
  { intros H; apply (f_equal c1) in H; simpl in H; lra. }
  split; [exact Hoff |].
  apply (db_scale_orthogonal origin (T3 2 0 0) (T3 1 1 0) (RtoC 1) Hoff).
Defined.

(** X6.  A sub-segment whose two ends coincide contributes the zero field
    at every other point. *)
Theorem db_scale_of_point_segment (p point : vec3) (I : C) :
  point <> p ->
  db_scale (p, p) point I = Return (Arr complex128 (T3 czero czero czero)).
Proof. apply db_scale_null_segment. Qed.

Lemma db_scale_of_point_segment_witness :
  T3 0 1 0 <> origin /\
  db_scale (origin, origin) (T3 0 1 0) (RtoC 1)
  = Return (Arr complex128 (T3 czero czero czero)).
Proof.
  assert (Hne : T3 0 1 0 <> origin).
  { intros H; apply (f_equal c1) in H; simpl in H; lra. }
  split; [exact Hne |].
  apply (db_scale_of_point_segment origin (T3 0 1 0) (RtoC 1) Hne).
Defined.

(** X7.  On the line through the sub-segment, at any point other than its
    middle, the field is zero. *)
Theorem db_scale_on_axis (seg_start seg_end : vec3) (t : R) (I : C) :
  vadd (midpoint seg_start seg_end) (vscale t (vsub seg_end seg_start))
  <> midpoint seg_start seg_end ->
  db_scale (seg_start, seg_end)
           (vadd (midpoint seg_start seg_end) (vscale t (vsub seg_end seg_start))) I
  = Return (Arr complex128 (T3 czero czero czero)).
Proof. apply db_scale_axis. Qed.

Lemma db_scale_on_axis_witness :
  vadd (midpoint origin (T3 2 0 0)) (vscale 1 (vsub (T3 2 0 0) origin))
  <> midpoint origin (T3 2 0 0) /\
  db_scale (origin, T3 2 0 0)
           (vadd (midpoint origin (T3 2 0 0)) (vscale 1 (vsub (T3 2 0 0) origin)))
           (RtoC 1)
  = Return (Arr complex128 (T3 czero czero czero)).
Proof.
  assert (Hne : vadd (midpoint origin (T3 2 0 0)) (vscale 1 (vsub (T3 2 0 0) origin))
                <> midpoint origin (T3 2 0 0)).
  { intros H; apply (f_equal c0) in H; simpl in H; lra. }
  split; [exact Hne |].
  apply (db_scale_on_axis origin (T3 2 0 0) 1 (RtoC 1) Hne).
Defined.

(** ** [BiotSolver.__solve_segment] *)

(** X8.  [__solve_segment] never returns a field it has added up: given
    two columns or more it raises TypeError at its first addition, and
    given fewer it returns the zero row of its float accumulator. *)
Theorem solve_segment_outcome (d_segment : list vec3) (point : vec3) (I : C) :
  solve_segment d_segment point I
  = if (length d_segment <=? 1)%nat then Return zeros_row
    else Raise "TypeError"%string.
Proof.
  destruct (Nat.leb_spec (length d_segment) 1).
  - apply solve_segment_empty; assumption.
  - apply solve_segment_raises; lia.
Qed.

(** ** [BiotSolver.__discretize] *)

(** X9.  An edge shorter than the step is returned as its two end points,
    unchanged. *)
Theorem discretize_short_edge (dL : R) (n : nat) (w : World) (p1 p2 : vec3) :
  nth_error (coordz (wire w)) n = Some p1 ->
  nth_error (coordz (wire w)) (n + 1) = Some p2 ->
  norm (vsub p2 p1) < dL ->
  result (discretize dL n) w = Return [p1; p2].
Proof.
  intros H1 H2 Hlt; unfold result.
  rewrite (discretize_short dL n w p1 p2 H1 H2 Hlt); reflexivity.
Qed.

(** The edge of length one with the step two. *)
Lemma discretize_short_edge_witness :
  norm (vsub (T3 1 0 0) origin) < 2 /\
  result (discretize 2 0) unit_edge_world = Return [origin; T3 1 0 0].
Proof.
  assert (Hlt : norm (vsub (T3 1 0 0) origin) < 2) by (rewrite norm_along_x; lra).
  split; [exact Hlt |].
  apply (discretize_short_edge 2 0 unit_edge_world origin (T3 1 0 0));
    [reflexivity | reflexivity | exact Hlt].
Defined.

(** X10.  With a positive step no longer than the edge, an edge that holds
    neither one nor three whole steps is refused with ValueError: the
    shape-(3,) step vector and the shape-(k,) range do not fit. *)
Theorem discretize_refuses_other_counts (dL : R) (n : nat) (w : World)
    (p1 p2 : vec3) :
  nth_error (coordz (wire w)) n = Some p1 ->
  nth_error (coordz (wire w)) (n + 1) = Some p2 ->
  0 < dL ->
  dL <= norm (vsub p2 p1) ->
  floor (norm (vsub p2 p1) / dL) <> 1%Z ->
  floor (norm (vsub p2 p1) / dL) <> 3%Z ->
  result (discretize dL n) w = Raise "ValueError"%string.
Proof.
  intros H1 H2 Hpos Hlong Hk1 Hk3; unfold result.
  rewrite (discretize_misfit dL n w p1 p2 H1 H2); [reflexivity | lra | lra | | ];
    assumption.
Qed.

Lemma floor_two : floor (norm (vsub (T3 2 0 0) origin) / 1) = 2%Z.
Proof.
  rewrite norm_along_x by lra.
  replace (2 / 1) with (IZR 2) by lra.
  apply ZfloorZ.
Qed.

(** The edge of length two with the step one: two whole steps. *)
Lemma discretize_refuses_other_counts_witness :
  0 < 1 /\
  1 <= norm (vsub (T3 2 0 0) origin) /\
  floor (norm (vsub (T3 2 0 0) origin) / 1) = 2%Z /\
  result (discretize 1 0) long_edge_world = Raise "ValueError"%string.
Proof.
  assert (Hlong : 1 <= norm (vsub (T3 2 0 0) origin)) by (rewrite norm_along_x; lra).
  split; [lra |]; split; [exact Hlong |]; split; [exact floor_two |].
  apply (discretize_refuses_other_counts 1 0 long_edge_world origin (T3 2 0 0));
    [reflexivity | reflexivity | lra | exact Hlong | |];
    rewrite floor_two; discriminate.
Defined.

(** X11.  When the discretizer returns on an edge no shorter than the
    step, the step is positive, the edge holds one or three whole steps,
    and the points returned are three points, each of which differs from
    [p1] by one amount on all three axes, followed by [p2] when the whole
    steps do not fill the edge. *)
Theorem discretize_long_edge_points (dL : R) (n : nat) (w : World)
    (p1 p2 : vec3) (d : list vec3) :
  nth_error (coordz (wire w)) n = Some p1 ->
  nth_error (coordz (wire w)) (n + 1) = Some p2 ->
  dL <= norm (vsub p2 p1) ->
  result (discretize dL n) w = Return d ->
  0 < dL /\
  (floor (norm (vsub p2 p1) / dL) = 1%Z \/ floor (norm (vsub p2 p1) / dL) = 3%Z) /\
  exists t0 t1 t2,
    d = [shift p1 t0; shift p1 t1; shift p1 t2]
        ++ if Req_dec_T (IZR (floor (norm (vsub p2 p1) / dL)))
                        (norm (vsub p2 p1) / dL)
           then [] else [p2].
Proof.
  intros H1 H2 Hlong; unfold result.
  pose proof (norm_nonneg (vsub p2 p1)) as HL.
  assert (Hnot : ~ norm (vsub p2 p1) < dL) by lra.
  destruct (Req_dec_T dL 0) as [-> | HdL].
  { rewrite (discretize_zero_step n w p1 p2 H1 H2); discriminate. }
  destruct (Z.eq_dec (floor (norm (vsub p2 p1) / dL)) 1) as [Hk | Hk1];
    [| destruct (Z.eq_dec (floor (norm (vsub p2 p1) / dL)) 3) as [Hk | Hk3]].
  3: { rewrite (discretize_misfit dL n w p1 p2 H1 H2 Hnot HdL Hk1 Hk3);
       discriminate. }
  all: assert (Hpos : 0 < dL)
    by (destruct (Rlt_dec dL 0) as [Hneg |]; [| lra];
        pose proof (floor_nonpositive _ _ HL Hneg); lia).
  all: destruct (discretize_fit dL n w p1 p2 H1 H2 Hnot HdL) as (t0 & t1 & t2 & Hd);
    [auto |].
  all: rewrite Hd; cbn [fst]; intros [= <-].
  all: split; [exact Hpos |]; split; [auto |]; exists t0, t1, t2; reflexivity.
Qed.

(** The edge of length one with the step one. *)
Lemma discretize_long_edge_points_witness :
  1 <= norm (vsub (T3 1 0 0) origin) /\
  result (discretize 1 0) unit_edge_world = Return [T3 1 1 1; T3 0 0 0; T3 0 0 0] /\
  0 < 1 /\
  (floor (norm (vsub (T3 1 0 0) origin) / 1) = 1%Z
   \/ floor (norm (vsub (T3 1 0 0) origin) / 1) = 3%Z) /\
  exists t0 t1 t2,
    [T3 1 1 1; T3 0 0 0; T3 0 0 0]
    = [shift origin t0; shift origin t1; shift origin t2]
      ++ if Req_dec_T (IZR (floor (norm (vsub (T3 1 0 0) origin) / 1)))
                      (norm (vsub (T3 1 0 0) origin) / 1)
         then [] else [T3 1 0 0].
Proof.
  assert (Hlong : 1 <= norm (vsub (T3 1 0 0) origin)) by (rewrite norm_along_x; lra).
  assert (Hrun : result (discretize 1 0) unit_edge_world
                 = Return [T3 1 1 1; T3 0 0 0; T3 0 0 0]).
  { unfold result; rewrite (unit_edge_step_one unit_edge_world eq_refl); reflexivity. }
  split; [exact Hlong |]; split; [exact Hrun |].
  apply (discretize_long_edge_points 1 0 unit_edge_world origin (T3 1 0 0)
           [T3 1 1 1; T3 0 0 0; T3 0 0 0] eq_refl eq_refl Hlong Hrun).
Defined.

(** X12.  A negative step is refused with ValueError on every edge: the
    range of whole steps is empty and does not fit the step vector. *)
Theorem discretize_negative_step (dL : R) (n : nat) (w : World) (p1 p2 : vec3) :
  nth_error (coordz (wire w)) n = Some p1 ->
  nth_error (coordz (wire w)) (n + 1) = Some p2 ->
  dL < 0 ->
  result (discretize dL n) w = Raise "ValueError"%string.
Proof.
  intros H1 H2 Hneg; unfold result.
  pose proof (norm_nonneg (vsub p2 p1)) as HL.
  pose proof (floor_nonpositive _ _ HL Hneg) as Hk.
  rewrite (discretize_misfit dL n w p1 p2 H1 H2); [reflexivity | lra | lra | lia | lia].
Qed.

Lemma discretize_negative_step_witness :
  -1 < 0 /\ result (discretize (-1) 0) unit_edge_world = Raise "ValueError"%string.
Proof.
  split; [lra |].
  apply (discretize_negative_step (-1) 0 unit_edge_world origin (T3 1 0 0));
    [reflexivity | reflexivity | lra].
Defined.

(** X13.  The check of the edge index: an index past the last vertex
    returns the empty list, and the index of the last vertex, which starts
    no edge, passes the check and raises IndexError. *)
Theorem discretize_index_bounds (dL : R) (n : nat) (w : World) :
  ((length (coordz (wire w)) <= n)%nat ->
   result (discretize dL n) w = Return []) /\
  (length (coordz (wire w)) = (n + 1)%nat ->
   result (discretize dL n) w = Raise "IndexError"%string).
Proof.
  unfold result, discretize, bind, gets, ret, lift; cbn [fst]; split; intros Hn.
  - destruct (Nat.ltb_spec (length (coordz (wire w))) (n + 1)); [reflexivity | lia].
  - destruct (Nat.ltb_spec (length (coordz (wire w))) (n + 1)); [lia |].
    unfold getitem.
    destruct (nth_error (coordz (wire w)) n) as [p |] eqn:Hp.
    + assert (Hnone : nth_error (coordz (wire w)) (n + 1) = None)
        by (apply nth_error_None; lia).
      rewrite Hnone; reflexivity.
    + apply nth_error_None in Hp; lia.
Qed.

(** A wire of one vertex: index 1 is past it, index 0 is its last. *)
Lemma discretize_index_bounds_witness :
  result (discretize 1 1) single_vertex_world = Return [] /\
  result (discretize 1 0) single_vertex_world = Raise "IndexError"%string.
Proof.
  split.
  - apply (proj1 (discretize_index_bounds 1 1 single_vertex_world)); simpl; lia.
  - apply (proj2 (discretize_index_bounds 1 0 single_vertex_world)); reflexivity.
Defined.

(** ** [BiotSolver.solve] *)

(** X14.  [solve] returns exactly when the wire has a single vertex, and
    then it returns the zero field, one row per observation point. *)
Theorem solve_returns_iff (dL : R) (w : World) (B : ndarray (list (triple cval))) :
  result (solve dL) w = Return B <->
  length (coordz (wire w)) = 1%nat /\ B = zeros_rows (length (points w)).
Proof.
  unfold result; split.
  - destruct (coordz (wire w)) as [| p [| p2 rest]] eqn:Hcz.
    + rewrite (solve_no_vertex dL w Hcz); discriminate.
    + rewrite (solve_one_vertex dL w p Hcz); cbn [fst]; intros [= <-]; auto.
    + intros HB.
      destruct (solve_raises_on_edge dL w) as [e He]; [rewrite Hcz; simpl; lia |].
      unfold result in He; congruence.
  - intros [Hlen ->].
    destruct (coordz (wire w)) as [| p [| p2 rest]] eqn:Hcz; try discriminate.
    rewrite (solve_one_vertex dL w p Hcz); reflexivity.
Qed.

(** X15.  On a wire with an edge the first edge decides the exception
    [solve] raises.  It is OverflowError exactly when the step is zero and
    the edge is not; TypeError exactly when there are three observation
    points and the step is positive and fits the edge once or three times;
    and ValueError in every other case. *)
Theorem solve_error_by_first_edge (dL : R) (w : World) (p1 p2 : vec3) :
  nth_error (coordz (wire w)) 0 = Some p1 ->
  nth_error (coordz (wire w)) 1 = Some p2 ->
  exists e,
    result (solve dL) w = Raise e /\
    (e = "ValueError" \/ e = "OverflowError" \/ e = "TypeError")%string /\
    (e = "OverflowError"%string <-> dL = 0 /\ norm (vsub p2 p1) <> 0) /\
    (e = "TypeError"%string <->
     length (points w) = 3%nat /\ 0 < dL /\
     (norm (vsub p2 p1) = dL \/ norm (vsub p2 p1) = 3 * dL)).
Proof. apply solve_first_edge_error. Qed.

(** The edge of length one, three points, the step one. *)
Lemma solve_error_by_first_edge_witness :
  exists e,
    result (solve 1) three_point_world = Raise e /\
    (e = "ValueError" \/ e = "OverflowError" \/ e = "TypeError")%string /\
    (e = "OverflowError"%string <-> 1 = 0 /\ norm (vsub (T3 1 0 0) origin) <> 0) /\
    (e = "TypeError"%string <->
     length (points three_point_world) = 3%nat /\ 0 < 1 /\
     (norm (vsub (T3 1 0 0) origin) = 1 \/ norm (vsub (T3 1 0 0) origin) = 3 * 1)).
Proof.
  apply (solve_error_by_first_edge 1 three_point_world origin (T3 1 0 0));
    reflexivity.
Defined.

(** ** [Coil.__init__] and [Coil.init_coil] *)

(** X16.  The constructor builds no coil.  A negative number of points is
    refused by [np.linspace] (ValueError); an orientation other than
    ['xy'], ['xz'] and ['yz'] leaves the coordinate arrays unbound
    (UnboundLocalError); and in every other case the call
    [np.array(X, Y, Z)] raises TypeError. *)
Theorem coil_constructor_raises (new_oid : nat) (center : vec3) (radius : R)
    (num_points : Z) (orientation : string) :
  Geom.init new_oid center radius num_points orientation
  = Raise (if (num_points <? 0)%Z then "ValueError"
           else if (String.eqb orientation "xy" || String.eqb orientation "xz"
                    || String.eqb orientation "yz")%bool
                then "TypeError"
                else "UnboundLocalError")%string.
Proof.
  unfold Geom.init; rewrite init_coil_raises; reflexivity.
Qed.

(** ** [Coil.calc_inductance], lines 84 to 88 and 96 to 99 *)

(** X17.  For a non-negative number of sample points the sample line has
    that many points; point [i] lies at [i * radius / (num_points - 1)]
    above the center along the z axis, whatever the orientation of the
    coil, and with two points or more the last one lies at the distance
    [radius]. *)
Theorem radial_line_along_z (m : Coil) :
  (0 <= num_points m)%Z ->
  exists ts pts,
    Geom.radial_line m = Return (ts, pts) /\
    length ts = Z.to_nat (num_points m) /\
    length pts = Z.to_nat (num_points m) /\
    (forall i, (i < Z.to_nat (num_points m))%nat ->
       nth i ts 0 = INR i * (radius m / (IZR (num_points m) - 1)) /\
       nth i pts origin
       = T3 (c0 (center m)) (c1 (center m)) (c2 (center m) + nth i ts 0)) /\
    ((2 <= num_points m)%Z ->
       nth (Z.to_nat (num_points m) - 1) pts origin
       = T3 (c0 (center m)) (c1 (center m)) (c2 (center m) + radius m)).
Proof. apply radial_line_points. Qed.

(** The coil of three sample points and radius two. *)
Lemma radial_line_along_z_witness :
  (0 <= num_points small_coil)%Z /\
  exists ts pts,
    Geom.radial_line small_coil = Return (ts, pts) /\
    length ts = Z.to_nat (num_points small_coil) /\
    length pts = Z.to_nat (num_points small_coil) /\
    (forall i, (i < Z.to_nat (num_points small_coil))%nat ->
       nth i ts 0 = INR i * (radius small_coil / (IZR (num_points small_coil) - 1)) /\
       nth i pts origin
       = T3 (c0 (center small_coil)) (c1 (center small_coil))
            (c2 (center small_coil) + nth i ts 0)) /\
    ((2 <= num_points small_coil)%Z ->
       nth (Z.to_nat (num_points small_coil) - 1) pts origin
       = T3 (c0 (center small_coil)) (c1 (center small_coil))
            (c2 (center small_coil) + radius small_coil)).
Proof.
  assert (Hnum : (0 <= num_points small_coil)%Z) by (simpl; lia).
  split; [exact Hnum |].
  apply (radial_line_along_z small_coil Hnum).
Defined.

(** X18.  The truncation on three profiles.  On the empty profile the
    builtin [max] raises ValueError.  On a profile whose first magnitude
    is NaN the maximum is NaN, no sample equals it, and the lookup of its
    index raises IndexError.  On a profile whose first magnitude is the
    positive infinity that sample is the maximum: the truncation returns
    it alone, with the first sample point. *)
Theorem truncation_degenerate_profiles (rest : list Coil.float) (pts : list R) :
  Coil.truncate_at_peak [] pts = Raise "ValueError"%string /\
  Coil.truncate_at_peak (Coil.NaN :: rest) pts = Raise "IndexError"%string /\
  Coil.truncate_at_peak (Coil.PInf :: rest) pts
  = Return ([Coil.PInf], firstn 1 pts).
Proof.
  split; [reflexivity |].
  split; [apply truncate_nan_first | apply truncate_inf_first].
Qed.

(** X19.  On a profile whose first magnitude is not NaN the truncation
    always returns: NaN samples are passed over, and the profile and the
    points are cut after the first sample [m] that holds the greatest
    magnitude, a number (finite or infinite) that no sample of the profile
    exceeds. *)
Theorem truncation_passes_over_nan (b0 : Coil.float) (rest : list Coil.float)
    (pts : list R) :
  b0 <> Coil.NaN ->
  exists m peak,
    (m < length (b0 :: rest))%nat /\
    nth_error (b0 :: rest) m = Some peak /\
    peak <> Coil.NaN /\
    (forall j x, nth_error (b0 :: rest) j = Some x -> Coil.float_gt x peak = false) /\
    (forall j, (j < m)%nat -> nth_error (b0 :: rest) j <> Some peak) /\
    Coil.truncate_at_peak (b0 :: rest) pts
    = Return (firstn (S m) (b0 :: rest), firstn (S m) pts).
Proof. apply truncate_number_first. Qed.

(** The profile 1, NaN, infinity, 2 over four sample points. *)
Lemma truncation_passes_over_nan_witness :
  Coil.Fin 1 <> Coil.NaN /\
  exists m peak,
    (m < length [Coil.Fin 1; Coil.NaN; Coil.PInf; Coil.Fin 2])%nat /\
    nth_error [Coil.Fin 1; Coil.NaN; Coil.PInf; Coil.Fin 2] m = Some peak /\
    peak <> Coil.NaN /\
    (forall j x, nth_error [Coil.Fin 1; Coil.NaN; Coil.PInf; Coil.Fin 2] j = Some x ->
                 Coil.float_gt x peak = false) /\
    (forall j, (j < m)%nat ->
               nth_error [Coil.Fin 1; Coil.NaN; Coil.PInf; Coil.Fin 2] j <> Some peak) /\
    Coil.truncate_at_peak [Coil.Fin 1; Coil.NaN; Coil.PInf; Coil.Fin 2] [0; 1; 2; 3]
    = Return (firstn (S m) [Coil.Fin 1; Coil.NaN; Coil.PInf; Coil.Fin 2],
              firstn (S m) [0; 1; 2; 3]).
Proof.
  assert (H : Coil.Fin 1 <> Coil.NaN) by discriminate.
  split; [exact H |].
  apply (truncation_passes_over_nan (Coil.Fin 1)
           [Coil.NaN; Coil.PInf; Coil.Fin 2] [0; 1; 2; 3] H).
Defined.
